(** * arkivo: the synchronization session engine and the stream listener

    A shallow embedding of [lib/listener.js] and [lib/sync.js].

    Conventions.
    - JavaScript objects used as dictionaries ([versions], [items]) are
      finite maps ([gmap]) from Zotero item keys to their values.
    - A value that may be [undefined] is an [option].
    - Arrays are lists; [push] appends at the end.
    - Loops whose termination is not evident from their syntax take a
      [fuel] argument; running out of it is a result of its own, never
      confused with a normal return.
    - Calls that leave the modelled code (requests to the Zotero API,
      delays, plugins, event emission, promise settlement) are recorded in
      a chronological trace. *)

From Stdlib Require Import ZArith Lia.
From stdpp Require Import base option list strings gmap.


(* ===================================================================== *)
(** * Part I: definitions                                                  *)
(* ===================================================================== *)

(** ** Helpers of [lib/common.js] *)

Module common.

(** Modelled from the spec: [common.findIndex] ([lib/common.js] is not among
    the sources).  The spec calls the lookups of the listener "linear
    scans" settling the oldest entry first: the position of the first
    element satisfying the predicate, [-1] when there is none. *)
Fixpoint findIndex_from {A : Type} (i : Z) (lst : list A)
    (predicate : A → bool) : Z :=
  match lst with
  | [] => (-1)%Z
  | x :: rest =>
      if predicate x then i else findIndex_from (i + 1)%Z rest predicate
  end.

Definition findIndex {A : Type} (lst : list A) (predicate : A → bool) : Z :=
  findIndex_from 0%Z lst predicate.

(** Modelled from the spec: [common.find] ([lib/common.js] is not among the
    sources): the first element satisfying the predicate, [undefined]
    ([None]) when there is none. *)
Fixpoint find {A : Type} (lst : list A) (predicate : A → bool) : option A :=
  match lst with
  | [] => None
  | x :: rest => if predicate x then Some x else find rest predicate
  end.

End common.

(** ** [lib/listener.js] *)

Module Listener.

(** [pick(s, 'id', 'key', 'path')]: the data of a registration.  [key] is
    the API key, absent for topics watched without a credential. *)
Record registration := Registration {
  id : string;
  key : option string;
  path : string
}.

#[global] Instance registration_eq_dec : EqDecision registration.
Proof. solve_decision. Defined.

(** What leaves the listener: events emitted to its own listeners, and the
    settlement of the promise that [add] handed to a caller (the [resolve]
    and [reject] callbacks stored with a pending entry). *)
Inductive event :=
| Added (data : registration)                     (* emit('added', data) *)
| Failed (data : registration) (reason : string)  (* emit('error', data, reason) *)
| Updated (s : registration)                      (* emit('updated', s) *)
| Resolved (data : registration)                  (* s.resolve(data) *)
| Rejected (data : registration).                 (* s.reject(data) *)

Record listener := Listener {
  current : list registration;
  pending : list registration;
  emitted : list event
}.

Definition emit (e : event) (l : listener) : listener :=
  {| current := current l; pending := pending l;
     emitted := emitted l ++ [e] |}.

(** The state of a loop when the fuel allotted to it is used up
    ([Spinning]) or when it has left the loop ([Returned]). *)
Inductive run :=
| Returned (l : listener)
| Spinning (l : listener).

(** A [subscriptionsCreated] entry: [{apiKey, topics}]. *)
Record confirmation := Confirmation {
  apiKey : option string;
  topics : list string
}.

(** An entry of the [errors] list of [subscriptionsCreated]:
    [{apiKey, topic, error}]. *)
Record failure := Failure {
  f_apiKey : option string;
  f_topic : string;
  f_error : string
}.

(** The [topicUpdated] payload: [{apiKey, topic, version}]. *)
Record notification := Notification {
  n_apiKey : option string;
  n_topic : string;
  n_version : Z
}.

Module Private.

(** [by(key, topic)].  With one argument, or with a falsy topic
    ([undefined] or the empty string), the predicate compares the local
    id; otherwise it compares credential and path. *)
Definition by_ (key : option string) (topic : option string)
    (s : registration) : bool :=
  match topic with
  | None | Some "" => bool_decide (Some (id s) = key)
  | Some t => bool_decide (Listener.key s = key) && bool_decide (path s = t)
  end.

(** [remove(list, key, topic)]: splices the first match out of the list
    and returns it, or returns [null]. *)
Definition remove (lst : list registration) (key topic : option string)
    : option registration * list registration :=
  let idx := common.findIndex lst (by_ key topic) in
  if (idx =? -1)%Z then (None, lst)
  else (lst !! Z.to_nat idx, delete (Z.to_nat idx) lst).

End Private.

Import Private.

(** [Listener.prototype.updated] *)
Fixpoint updated (fuel : nat) (data : notification) (l : listener) : run :=
  match fuel with
  | 0 => Spinning l
  | S fuel' =>
      match common.find (current l) (by_ (n_apiKey data) (Some (n_topic data))) with
      | Some s => updated fuel' data (emit (Updated s) l)
      | None => Returned l
      end
  end.

(** [Listener.prototype.resolve] *)
Fixpoint resolve (fuel : nat) (key : option string) (topic : option string)
    (l : listener) : run :=
  match fuel with
  | 0 => Spinning l
  | S fuel' =>
      match remove (pending l) key topic with
      | (Some s, pending') =>
          let data := s in
          resolve fuel' key topic
            {| current := current l ++ [data];
               pending := pending';
               emitted := emitted l ++ [Resolved data; Added data] |}
      | (None, _) => Returned l
      end
  end.

(** [Listener.prototype.reject] *)
Fixpoint reject (fuel : nat) (key : option string) (topic : option string)
    (reason : string) (l : listener) : run :=
  match fuel with
  | 0 => Spinning l
  | S fuel' =>
      match remove (pending l) key topic with
      | (Some s, pending') =>
          let data := s in
          reject fuel' key topic reason
            {| current := current l;
               pending := pending';
               emitted := emitted l ++ [Rejected data; Failed data reason] |}
      | (None, _) => Returned l
      end
  end.

(** What [resolve] lets out for a registration it settles. *)
Definition settle (s : registration) : list event := [Resolved s; Added s].

(** Sequencing of two loops: the second starts when the first returned. *)
Definition then_ (r : run) (k : listener → run) : run :=
  match r with
  | Returned l => k l
  | Spinning l => Spinning l
  end.

(** The inner loop of [subscribed]: one [resolve] per confirmed topic. *)
Fixpoint subscribed_topics (fuel : nat) (key : option string)
    (topics : list string) (l : listener) : run :=
  match topics with
  | [] => Returned l
  | topic :: rest =>
      then_ (resolve fuel key (Some topic) l) (subscribed_topics fuel key rest)
  end.

Fixpoint subscribed_confirmations (fuel : nat)
    (subscriptions : list confirmation) (l : listener) : run :=
  match subscriptions with
  | [] => Returned l
  | subscription :: rest =>
      then_ (subscribed_topics fuel (apiKey subscription) (topics subscription) l)
            (subscribed_confirmations fuel rest)
  end.

Fixpoint subscribed_errors (fuel : nat) (errors : list failure)
    (l : listener) : run :=
  match errors with
  | [] => Returned l
  | e :: rest =>
      then_ (reject fuel (f_apiKey e) (Some (f_topic e)) (f_error e) l)
            (subscribed_errors fuel rest)
  end.

(** [Listener.prototype.subscribed]: both arguments may be absent. *)
Definition subscribed (fuel : nat) (subscriptions : option (list confirmation))
    (errors : option (list failure)) (l : listener) : run :=
  then_ (match subscriptions with
         | Some subscriptions => subscribed_confirmations fuel subscriptions l
         | None => Returned l
         end)
        (λ l, match errors with
              | Some errors => subscribed_errors fuel errors l
              | None => Returned l
              end).

(** [Listener.prototype.register] *)
Definition register (subscription : registration) (l : listener) : listener :=
  {| current := current l;
     pending := pending l ++ [subscription];
     emitted := emitted l |}.

(** The answer of the stream to [subscribe] or [unsubscribe]: the argument
    of the callback, an error or nothing. *)
Definition stream_answer := option string.

(** How a promise returned by [add] or [remove] ends, as far as the
    listener decides it at once. *)
Inductive settled :=
| Fulfilled (data : registration)
| RejectedWith (reason : string)
| Pending.

(** [Listener.prototype.add]: the promise stays pending until a
    [subscriptionsCreated] message settles the registration. *)
Definition add (subscription : registration) (answer : stream_answer)
    (l : listener) : settled * listener :=
  match answer with
  | Some error => (RejectedWith error, l)
  | None => (Pending, register subscription l)
  end.

(** [Listener.prototype.remove]: [unsubscribe] is the stream's answer to
    the request for the registration found. *)
Definition remove (subscription_id : string)
    (unsubscribe : registration → stream_answer) (l : listener)
    : settled * listener :=
  match Private.remove (current l) (Some subscription_id) None with
  | (None, _) => (RejectedWith "not registered", l)
  | (Some data, current') =>
      let l' := {| current := current'; pending := pending l;
                   emitted := emitted l |} in
      match unsubscribe data with
      | Some error => (RejectedWith error, l')
      | None => (Fulfilled data, l')
      end
  end.

(** *** What the events tell *)

(** The registrations that a sequence of events announces as added, and
    those whose promise it rejects. *)
Definition added_of (evs : list event) : list registration :=
  omap (λ e, match e with Added data => Some data | _ => None end) evs.

Definition rejected_of (evs : list event) : list registration :=
  omap (λ e, match e with Rejected data => Some data | _ => None end) evs.

(** What [reject] lets out for a registration it settles. *)
Definition refuse (reason : string) (s : registration) : list event :=
  [Rejected s; Failed s reason].

(** The listener [l'] is the listener [l] with some of its pending
    registrations settled: each one that has left the pending list stands
    at the end of the active list with an [added] event, or has had its
    promise rejected; none is lost, none is settled twice, and those left
    pending keep their order. *)
Definition settles (l l' : listener) : Prop :=
  ∃ evs,
    emitted l' = emitted l ++ evs ∧
    current l' = current l ++ added_of evs ∧
    pending l ≡ₚ pending l' ++ added_of evs ++ rejected_of evs ∧
    pending l' `sublist_of` pending l.

End Listener.

(** ** [lib/sync.js] *)

Module Sync.

Definition MAX_BATCH_SIZE : nat := 50.

(** *** Data received from the Zotero API *)

(** An item payload, as far as the session reads it: [key], [version],
    [data.parentItem] and [meta.numChildren].  The [children] array that
    [receive] attaches to a payload is written and never read by the
    session, and is not kept here. *)
Record item := Item {
  item_key : string;
  item_version : Z;
  item_parentItem : option string;
  item_numChildren : Z
}.

(** A response carrying items: [type], [version] and [data]. *)
Record message := Message {
  msg_type : string;
  msg_version : Z;
  msg_data : list item
}.

(** A continuation page of the version manifest, as [message.next()]
    yields it: [type], [version] and [data]. *)
Record page := Page {
  p_type : string;
  p_version : Z;
  p_data : gmap string Z
}.

(** The first response to the request for the version manifest:
    [unmodified], [type], [version], [data], [multi], and the pages that
    [next()] yields in turn; [done] holds when none is left. *)
Record manifest := Manifest {
  unmodified : bool;
  m_type : string;
  m_version : Z;
  m_data : gmap string Z;
  multi : bool;
  pages : list page
}.

(** *** Errors *)

Inductive error :=
| InterruptedError (message : string)
| Error (name message : string).

(** [InterruptedError.prototype.resume] *)
Definition resume : Z := 5000.

(** [error instanceof InterruptedError] *)
Definition is_InterruptedError (e : error) : bool :=
  match e with
  | InterruptedError _ => true
  | Error _ _ => false
  end.

(** *** Helpers *)

(** [getParent(item)]: [item.data.parentItem] when it is truthy; an absent
    parent and the empty string are both falsy. *)
Definition getParent (item : item) : option string :=
  match item_parentItem item with
  | Some "" => None
  | Some parent => Some parent
  | None => None
  end.

(** [hasChildren(item)]: [item.meta.numChildren] is truthy. *)
Definition hasChildren (item : item) : bool :=
  negb (item_numChildren item =? 0)%Z.

(** *** The subscription and the session *)

(** A plugin descriptor [{name, options}]; the options are handed to the
    plugin unread. *)
Record plugin := Plugin { plugin_name : string }.

Record Subscription := {
  sub_id : string;
  sub_version : Z;
  sub_versions : gmap string Z;
  sub_plugins : list plugin
}.

(** The fields of a [Session] that the synchronization reads or writes
    (the attachment cache is only used by plugins). *)
Record session := Session {
  subscription : Subscription;
  items : gmap string item;
  created : list string;
  updated : list string;
  deleted : list string;
  version : option Z;
  versions : option (gmap string Z)
}.

(** [new Session(subscription, synchronizer)] *)
Definition new (sub : Subscription) : session :=
  {| subscription := sub; items := ∅; created := []; updated := [];
     deleted := []; version := None; versions := None |}.

(** The [modified] getter. *)
Definition modified (s : session) : bool :=
  match version s with
  | None => false
  | Some v => bool_decide (sub_version (subscription s) < v)%Z
  end.

(** *** The world outside the session *)

(** The answer to a request: a response, or a rejected promise. *)
Inductive reply (A : Type) :=
| Reply (response : A)
| Refused (reason : string).
Arguments Reply {A} response.
Arguments Refused {A} reason.

(** The Zotero API client ([lib/zotero.js] is not among the sources): a
    state machine answering the three requests a session issues.  Its
    state [σ] stands for everything that decides the answers, the remote
    library and its changes over time included. *)
Record Zotero (σ : Type) := {
  get_versions : σ → reply manifest * σ;
  get_items : list string → σ → reply message * σ;
  get_children : string → σ → reply message * σ
}.
Arguments get_versions {σ} z s : rename.
Arguments get_items {σ} z batch s : rename.
Arguments get_children {σ} z key s : rename.

(** The plugin registry ([lib/plugins.js] is not among the sources):
    which names are available, and how processing a session ends. *)
Record Plugins := {
  available : string → bool;
  process : string → session → option string
}.

(** Calls that leave the session and the synchronizer. *)
Inductive event :=
| GetVersions                      (* this.get(s.path, {format: 'versions'}) *)
| GetNext                          (* message.next() *)
| GetItems (batch : list string)   (* this.fetch(batch) *)
| GetChildren (key : string)       (* this.children(item) *)
| Delay (ms : Z)                   (* B.delay(ms) *)
| Touch                            (* sub.touch() *)
| Process (name : string)          (* plugins.use(name).process(session) *)
| Update (version : option Z) (versions : option (gmap string Z)).
                                   (* sub.update({version, versions}) *)

Record world (σ : Type) := World {
  remote : σ;
  this : session;
  trace : list event
}.
Arguments World {σ} remote this trace.
Arguments remote {σ} w.
Arguments this {σ} w.
Arguments trace {σ} w.

(** *** Computations: state, exceptions and fuel *)

Inductive outcome (A : Type) :=
| Done (a : A)
| Raise (e : error)
| OutOfFuel.
Arguments Done {A} a.
Arguments Raise {A} e.
Arguments OutOfFuel {A}.

(** A computation changes the world and ends with an outcome; the changes
    made before an exception stay, as mutations do in JavaScript. *)
Definition M (σ A : Type) : Type := world σ → outcome A * world σ.

Definition ret {σ A} (a : A) : M σ A := λ w, (Done a, w).

Definition bind {σ A B} (m : M σ A) (k : A → M σ B) : M σ B :=
  λ w, match m w with
       | (Done a, w') => k a w'
       | (Raise e, w') => (Raise e, w')
       | (OutOfFuel, w') => (OutOfFuel, w')
       end.

Definition throw {σ A} (e : error) : M σ A := λ w, (Raise e, w).

Definition out_of_fuel {σ A} : M σ A := λ w, (OutOfFuel, w).

(** [try { m } catch (error) { handler }] *)
Definition try_catch {σ A} (m : M σ A) (handler : error → M σ A) : M σ A :=
  λ w, match m w with
       | (Raise e, w') => handler e w'
       | other => other
       end.

Definition gets {σ A} (f : session → A) : M σ A := λ w, (Done (f (this w)), w).

Definition modify {σ} (f : world σ → world σ) : M σ unit :=
  λ w, (Done tt, f w).

(** The result of a computation that touches nothing. *)
Definition lift {σ A} (r : outcome A) : M σ A := λ w, (r, w).

#[global] Instance M_ret {σ} : MRet (M σ) := λ A a, ret a.
#[global] Instance M_bind {σ} : MBind (M σ) := λ A B k m, bind m k.

(** *** Changes of the world *)

Definition with_session {σ} (f : session → session) (w : world σ) : world σ :=
  {| remote := remote w; this := f (this w); trace := trace w |}.

Definition log {σ} (e : event) (w : world σ) : world σ :=
  {| remote := remote w; this := this w; trace := trace w ++ [e] |}.

Definition answered {σ} (e : event) (s : σ) (w : world σ) : world σ :=
  {| remote := s; this := this w; trace := trace w ++ [e] |}.

Definition set_version (v : option Z) (s : session) : session :=
  {| subscription := subscription s; items := items s; created := created s;
     updated := updated s; deleted := deleted s; version := v;
     versions := versions s |}.

Definition set_versions (vs : option (gmap string Z)) (s : session) : session :=
  {| subscription := subscription s; items := items s; created := created s;
     updated := updated s; deleted := deleted s; version := version s;
     versions := vs |}.

Definition set_diff (c u d : list string) (s : session) : session :=
  {| subscription := subscription s; items := items s; created := c;
     updated := u; deleted := d; version := version s;
     versions := versions s |}.

(** [this.items[item.key] = item] *)
Definition store (item : item) (s : session) : session :=
  {| subscription := subscription s;
     items := <[item_key item := item]> (items s);
     created := created s; updated := updated s; deleted := deleted s;
     version := version s; versions := versions s |}.

(** A request to the API: the answer advances the remote state; a
    rejected promise is raised where it is awaited. *)
Definition request {σ A} (e : event) (call : σ → reply A * σ) : M σ A :=
  λ w, match call (remote w) with
       | (Reply response, s) => (Done response, answered e s w)
       | (Refused reason, s) => (Raise (Error "Error" reason), answered e s w)
       end.

(** [assert.equal(expected, actual)] on strings. *)
Definition assert_equal {σ} (expected actual : string) : M σ unit :=
  if bool_decide (expected = actual) then ret tt
  else throw (Error "AssertionError" actual).

(** *** Steps

    Every change that the session makes to the world is one of the
    following; a run of a method is a sequence of them.  Only [execute]
    delays. *)

(** The requests to the API. *)
Definition is_request (e : event) : bool :=
  match e with
  | GetVersions | GetNext | GetItems _ | GetChildren _ => true
  | _ => false
  end.

Definition is_delay (e : event) : bool :=
  match e with
  | Delay _ => true
  | _ => false
  end.

Inductive step {σ : Type} (delays : bool) : world σ → world σ → Prop :=
| step_version v w : step delays w (with_session (set_version v) w)
| step_versions vs w : step delays w (with_session (set_versions vs) w)
| step_diff c u d w : step delays w (with_session (set_diff c u d) w)
| step_store item w : step delays w (with_session (store item) w)
| step_request e s w : is_request e = true → step delays w (answered e s w)
| step_delay w : delays = true → step delays w (log (Delay resume) w).

(** A computation all of whose changes are steps, with or without
    delays. *)
Definition runs {σ A : Type} (delays : bool) (m : M σ A) : Prop :=
  ∀ w r w', m w = (r, w') → rtc (step delays) w w'.

(** Whatever [m] ends with, short of running out of fuel, [m'] ends with
    too. *)
Definition refines {σ A : Type} (m m' : M σ A) : Prop :=
  ∀ w r w', m w = (r, w') → r ≠ OutOfFuel → m' w = (r, w').

(** The session holds an item for the key, at the version that the
    manifest lists: [download] skips such a key. *)
Definition cached (s : session) (key : string) : Prop :=
  ∃ it vs,
    items s !! key = Some it ∧ versions s = Some vs ∧
    vs !! key = Some (item_version it).

(** The keys [keys] are the keys [keys0] with keys appended to them, none
    of them twice, none of them in [keys0], each the parent of one of the
    [payloads]. *)
Definition appended_once (payloads : list item) (keys0 keys : list string)
    : Prop :=
  ∃ added,
    keys = keys0 ++ added ∧ NoDup added ∧
    ∀ p, p ∈ added →
         (p ∉ keys0) ∧ ∃ it, it ∈ payloads ∧ getParent it = Some p.

(** A computation that takes every world [w] to a world that [I] relates
    to [w], however it ends. *)
Definition keeps {σ A : Type} (I : relation (world σ)) (m : M σ A) : Prop :=
  ∀ w r w', m w = (r, w') → I w w'.

(** The calls recorded from [w] to [w'] all satisfy [P]. *)
Definition emits {σ : Type} (P : event → Prop) (w w' : world σ) : Prop :=
  ∃ evs, trace w' = trace w ++ evs ∧ Forall P evs.

(** The session of [w'] holds the items of the session of [w], no more
    and no less. *)
Definition same_items {σ : Type} (w w' : world σ) : Prop :=
  items (this w') = items (this w).

(** The requests and waits of a session that only asks for the version
    manifest. *)
Definition is_manifest_call (e : event) : Prop :=
  e = GetVersions ∨ e = GetNext ∨ e = Delay resume.

(** A request for a batch of at least one and at most [MAX_BATCH_SIZE]
    items, or a request for the children of an item. *)
Definition is_item_call (e : event) : Prop :=
  match e with
  | GetItems batch => 0 < length batch ≤ MAX_BATCH_SIZE
  | GetChildren _ => True
  | _ => False
  end.

(** The session has asked for the version manifest and waited, and done
    nothing else to the world outside or to its items. *)
Definition manifest_only {σ : Type} (w w' : world σ) : Prop :=
  same_items w w' ∧ emits is_manifest_call w w'.

#[global] Instance emits_preorder {σ : Type} (P : event → Prop) :
  PreOrder (@emits σ P).
Proof.
  split.
  - intros w. exists []. split; [by rewrite app_nil_r|constructor].
  - intros w1 w2 w3 (evs1 & H1 & HP1) (evs2 & H2 & HP2).
    exists (evs1 ++ evs2). split; [|by apply Forall_app].
    by rewrite H2, H1, <- app_assoc.
Qed.

#[global] Instance manifest_only_preorder {σ : Type} :
  PreOrder (@manifest_only σ).
Proof.
  split.
  - intros w. split; [done|reflexivity].
  - intros w1 w2 w3 [Hi1 He1] [Hi2 He2]. split; [|by etrans].
    unfold same_items in *. congruence.
Qed.

(** Any call but a request for items or children, and but a plugin. *)
Definition is_versions_call (e : event) : Prop :=
  match e with
  | GetItems _ | GetChildren _ | Process _ => False
  | _ => True
  end.

(** The versions that the pages of a manifest add up to: every page is
    copied over what the pages before it have left. *)
Definition merge (data : gmap string Z) (pages : list page) : gmap string Z :=
  foldl (λ acc p, p_data p ∪ acc) data pages.

(** ** [Session] *)

Module Session.
Section Session.
Context {σ : Type} (z : Zotero σ).

(** [Session.prototype.check] *)
Definition check (version : Z) : M σ bool :=
  current ← gets Sync.version;
  match current with
  | None => mret true
  | Some v =>
      if bool_decide (v = version) then mret true
      else throw (InterruptedError "version mismatch detected")
  end.

(** The body of the first loop of [diff]: a current key is created,
    updated or unchanged. *)
Definition diff_versions (earlier : gmap string Z)
    (acc : list string * list string) (entry : string * Z)
    : list string * list string :=
  match earlier !! entry.1 with
  | Some e =>
      if bool_decide (e < entry.2)%Z then (acc.1, acc.2 ++ [entry.1]) else acc
  | None => (acc.1 ++ [entry.1], acc.2)
  end.

(** The body of the second loop of [diff]: an earlier key is deleted
    when the current versions do not have it. *)
Definition diff_earlier (versions : gmap string Z) (deleted : list string)
    (entry : string * Z) : list string :=
  match versions !! entry.1 with
  | Some _ => deleted
  | None => deleted ++ [entry.1]
  end.

(** [Session.prototype.diff]; [for (key in object)] enumerates the
    entries of the dictionary. *)
Definition diff (versions earlier : option (gmap string Z)) : M σ unit :=
  s ← gets id;
  match (match versions with Some _ => versions | None => Sync.versions s end) with
  | None => throw (Error "AssertionError" "typeof versions === 'object'")
  | Some versions =>
      let earlier := default (sub_versions (subscription s)) earlier in
      let cu := foldl (diff_versions earlier) ([], []) (map_to_list versions) in
      let d := foldl (diff_earlier versions) [] (map_to_list earlier) in
      modify (with_session (set_diff cu.1 cu.2 d))
  end.

(** [extend(this.versions, message.data)]: the properties of the page
    are copied into the versions, replacing those already there. *)
Definition extend_versions (data : gmap string Z) (s : session) : session :=
  set_versions (Some (data ∪ default ∅ (Sync.versions s))) s.

(** The loop of [update] over the continuation pages. *)
Fixpoint update_pages (rest : list page) : M σ unit :=
  match rest with
  | [] => mret tt
  | message :: rest =>
      modify (log GetNext) ;;
      check (p_version message) ;;
      assert_equal "json" (p_type message) ;;
      modify (with_session (extend_versions (p_data message))) ;;
      update_pages rest
  end.

(** [Session.prototype.update] *)
Definition update : M σ unit :=
  modify (with_session (set_version None)) ;;
  message ← request GetVersions (get_versions z);
  if unmodified message then mret tt
  else
    assert_equal "json" (m_type message) ;;
    modify (with_session (set_version (Some (m_version message)))) ;;
    modify (with_session (set_versions (Some (m_data message)))) ;;
    (if multi message then update_pages (pages message) else mret tt) ;;
    diff None None.

(** [!item || item.version !== this.versions[key]]: reading a property
    of [this.versions] while it is undefined is a TypeError. *)
Definition stale (s : session) (key : string) : outcome bool :=
  match items s !! key with
  | None => Done true
  | Some item =>
      match Sync.versions s with
      | None => Raise (Error "TypeError" "this.versions is undefined")
      | Some vs =>
          Done (bool_decide (Some (item_version item) ≠ vs !! key))
      end
  end.

(** The inner loop of [download], from index [i] on ([rest] is what is
    left of [keys] there): selects a batch and returns it with the index
    at which the scan stopped. *)
Fixpoint select (s : session) (rest : list string) (i : nat)
    (batch : list string) : outcome (list string * nat) :=
  match rest with
  | [] => Done (batch, i)
  | key :: rest =>
      match stale s key with
      | Done true =>
          let batch := batch ++ [key] in
          if bool_decide (MAX_BATCH_SIZE ≤ length batch) then Done (batch, S i)
          else select s rest (S i) batch
      | Done false => select s rest (S i) batch
      | Raise e => Raise e
      | OutOfFuel => OutOfFuel
      end
  end.

(** [Session.prototype.fetch] *)
Definition fetch (batch : list string) : M σ message :=
  request (GetItems batch) (get_items z batch).

(** [Session.prototype.children] *)
Definition children (item : item) : M σ message :=
  request (GetChildren (item_key item)) (get_children z (item_key item)).

(** The parent of a received item joins the keys to fetch, unless the
    keys are undefined, the item has no parent, or they list it already. *)
Definition push_parent (item : item) (keys : option (list string))
    : option (list string) :=
  match keys, getParent item with
  | Some keys, Some parent =>
      if bool_decide (parent ∈ keys) then Some keys
      else Some (keys ++ [parent])
  | _, _ => keys
  end.

(** The loop of [receive] over the items of a message; [recv] is the
    recursive call of [receive] on the children of an item.  The keys are
    the array shared with [download]; they are returned as the loop left
    them. *)
Fixpoint receive_items (recv : message → M σ (list item))
    (data : list item) (keys : option (list string))
    : M σ (option (list string)) :=
  match data with
  | [] => mret keys
  | item :: rest =>
      modify (with_session (store item)) ;;
      let keys := push_parent item keys in
      (if hasChildren item then
         message ← children item;
         recv message ;; mret tt
       else mret tt) ;;
      receive_items recv rest keys
  end.

(** [Session.prototype.receive]: returns the items received, and the
    shared array of keys as it is when the call returns. *)
Fixpoint receive (fuel : nat) (message : message)
    (keys : option (list string)) {struct fuel}
    : M σ (list item * option (list string)) :=
  match fuel with
  | 0 => out_of_fuel
  | S fuel =>
      check (msg_version message) ;;
      assert_equal "json" (msg_type message) ;;
      keys ← receive_items
                (λ m, r ← receive fuel m None; mret r.1)
                (msg_data message) keys;
      mret (msg_data message, keys)
  end.

(** The outer loop of [download], with the scan at index [i]. *)
Fixpoint download_loop (fuel : nat) (i : nat) (keys : list string)
    {struct fuel} : M σ (list string) :=
  match fuel with
  | 0 => out_of_fuel
  | S fuel =>
      if bool_decide (i < length keys) then
        s ← gets id;
        sel ← lift (select s (drop i keys) i []);
        match sel.1 with
        | [] => download_loop fuel sel.2 keys
        | batch =>
            message ← fetch batch;
            r ← receive fuel message (Some keys);
            download_loop fuel sel.2 (default keys r.2)
        end
      else mret keys
  end.

(** [Session.prototype.download]: returns the array of keys as the call
    leaves it. *)
Definition download (fuel : nat) (keys : option (list string))
    : M σ (list string) :=
  s ← gets id;
  let keys := default (updated s ++ created s) keys in
  match keys with
  | [] => mret keys
  | _ => download_loop fuel 0 keys
  end.

(** [Session.prototype.execute] *)
Fixpoint execute (fuel : nat) (skip : bool) (retry : option Z)
    {struct fuel} : M σ unit :=
  match fuel with
  | 0 => out_of_fuel
  | S fuel =>
      let retry := default 3%Z retry in
      try_catch
        (update ;;
         if skip then mret tt else download fuel None ;; mret tt)
        (λ error,
           if (retry =? 0)%Z || negb (is_InterruptedError error)
           then throw error
           else
             modify (log (Delay resume)) ;;
             execute fuel skip (Some (retry - 1)%Z))
  end.

End Session.
End Session.

(** ** The attachment cache of a session *)

Module Attachments.
Section Attachments.
Context {σ A : Type}.

(** [this.attachments], a dictionary from item keys to the responses that
    carried their files, with the remote state that decides the answers
    and the keys whose file has been requested, in order. *)
Record cache := Cache {
  c_remote : σ;
  attachments : gmap string A;
  requested : list string
}.

(** The request [this.get(library/items/key/file)]. *)
Variable get_file : string → σ → reply A * σ.

(** [Session.prototype.attachment]: a response is truthy, so the cache
    answers whenever it holds an entry for the key; [tap] stores the
    response of a request that succeeds, and nothing when it fails. *)
Definition attachment (item : item) (c : cache) : outcome A * cache :=
  match attachments c !! item_key item with
  | Some message => (Done message, c)
  | None =>
      match get_file (item_key item) (c_remote c) with
      | (Reply message, s) =>
          (Done message,
           {| c_remote := s;
              attachments := <[item_key item := message]> (attachments c);
              requested := requested c ++ [item_key item] |})
      | (Refused reason, s) =>
          (Raise (Error "Error" reason),
           {| c_remote := s;
              attachments := attachments c;
              requested := requested c ++ [item_key item] |})
      end
  end.

End Attachments.
Arguments cache : clear implicits.
End Attachments.

(** ** [Synchronizer] *)

(** The trace records a call of [sub.update]. *)
Definition persisted (t : list event) : Prop :=
  ∃ v vs, Update v vs ∈ t.


Module Synchronizer.
Section Synchronizer.
Context {σ : Type} (z : Zotero σ) (plugins : Plugins).

(** The mapper that [dispatch] applies to a plugin descriptor: a plugin
    that is not available is skipped; the error of a plugin that fails is
    thrown again by the [catch] handler. *)
Definition dispatch_plugin (p : plugin) : M σ unit :=
  if available plugins (plugin_name p) then
    s ← gets id;
    modify (log (Process (plugin_name p))) ;;
    match process plugins (plugin_name p) s with
    | Some message => throw (Error "Error" message)
    | None => mret tt
    end
  else mret tt.

(** Modelled from the spec: [B.map(plugins, mapper, {concurrency: 1})]
    (bluebird is not among the sources) runs the mapper on one plugin at a
    time, in the order of the subscription's list, and is rejected by the
    first failure, which leaves the remaining plugins unprocessed. *)
Fixpoint dispatch_map (ps : list plugin) : M σ unit :=
  match ps with
  | [] => mret tt
  | p :: rest => dispatch_plugin p ;; dispatch_map rest
  end.

(** [Synchronizer.prototype.dispatch] *)
Definition dispatch : M σ unit :=
  s ← gets id;
  dispatch_map (sub_plugins (subscription s)).

(** [Synchronizer.prototype.synchronize]; the calls [sub.touch()] and
    [sub.update(...)] leave the sources and are recorded with their
    arguments. *)
Definition synchronize (fuel : nat) (sub : Subscription) (skip : bool)
    : M σ session :=
  modify (with_session (λ _, new sub)) ;;
  modify (log Touch) ;;
  Session.execute z fuel skip None ;;
  s ← gets id;
  (if modified s then
     (if skip then mret tt else dispatch) ;;
     s ← gets id;
     modify (log (Update (version s) (versions s)))
   else mret tt) ;;
  gets id.

(** [Synchronizer.prototype.update] *)
Definition update (fuel : nat) (sub : Subscription) : M σ session :=
  synchronize fuel sub true.

End Synchronizer.
End Synchronizer.

End Sync.

(** ** Concrete inputs *)

Module Scenario.

(** *** Registrations of the listener *)

Definition topic : string := "/users/1/items".

Definition first_caller : Listener.registration :=
  Listener.Registration "s1" (Some "K") topic.

Definition second_caller : Listener.registration :=
  Listener.Registration "s2" (Some "K") topic.

Definition other_topic : Listener.registration :=
  Listener.Registration "s3" (Some "K") "/groups/7/items".

(** Two callers wait for the same credential and topic, a third for
    another topic. *)
Definition waiting : Listener.listener :=
  Listener.Listener [] [first_caller; second_caller; other_topic] [].

(** Two callers watch the same credential and topic. *)
Definition watching : Listener.listener :=
  Listener.Listener [first_caller; second_caller] [] [].

Definition confirmed : list Listener.confirmation :=
  [Listener.Confirmation (Some "K") [topic]].

Definition notified : Listener.notification :=
  Listener.Notification (Some "K") topic 5.

(** A stream that answers every [unsubscribe] with an error. *)
Definition closed_stream : Listener.registration → Listener.stream_answer :=
  λ _, Some "socket closed".

(** *** A small library *)

(** An attachment [x] whose parent is [p]. *)
Definition x : Sync.item := Sync.Item "x" 5 (Some "p") 0.
Definition p : Sync.item := Sync.Item "p" 3 None 0.

Definition shelf (key : string) : list Sync.item :=
  if bool_decide (key = "x") then [x]
  else if bool_decide (key = "p") then [p]
  else [].

Definition listing : Sync.manifest :=
  Sync.Manifest false "json" 5 {["x" := 5%Z]} false [].

(** A library at rest: every answer carries version 5. *)
Definition steady : Sync.Zotero unit := {|
  Sync.get_versions := λ s, (Sync.Reply listing, s);
  Sync.get_items := λ batch s,
    (Sync.Reply (Sync.Message "json" 5 (batch ≫= shelf)), s);
  Sync.get_children := λ key s, (Sync.Reply (Sync.Message "json" 5 []), s)
|}.

(** A library that changes after its first answer to a request for
    items: the state counts these answers, and the later ones carry
    version 6. *)
Definition moving : Sync.Zotero nat := {|
  Sync.get_versions := λ s, (Sync.Reply listing, s);
  Sync.get_items := λ batch s,
    (Sync.Reply
       (Sync.Message "json" (if bool_decide (s = 0) then 5 else 6)
          (batch ≫= shelf)),
     S s);
  Sync.get_children := λ key s, (Sync.Reply (Sync.Message "json" 5 []), s)
|}.

(** A library that does not answer. *)
Definition offline : Sync.Zotero unit := {|
  Sync.get_versions := λ s, (Sync.Refused "ECONNREFUSED", s);
  Sync.get_items := λ batch s, (Sync.Refused "ECONNREFUSED", s);
  Sync.get_children := λ key s, (Sync.Refused "ECONNREFUSED", s)
|}.

(** An item that is listed among its own children. *)
Definition ouroboros : Sync.item := Sync.Item "a" 5 None 1.

Definition cyclic : Sync.Zotero unit := {|
  Sync.get_versions := λ s, (Sync.Reply listing, s);
  Sync.get_items := λ batch s,
    (Sync.Reply (Sync.Message "json" 5 [ouroboros]), s);
  Sync.get_children := λ key s,
    (Sync.Reply (Sync.Message "json" 5 [ouroboros]), s)
|}.

(** A subscription last synchronized at version 1, with one plugin. *)
Definition subscribed : Sync.Subscription := {|
  Sync.sub_id := "s1";
  Sync.sub_version := 1;
  Sync.sub_versions := ∅;
  Sync.sub_plugins := [Sync.Plugin "index"]
|}.

Definition fresh {σ : Type} (s : σ) : Sync.world σ :=
  Sync.World s (Sync.new subscribed) [].

(** A session that knows the manifest and holds [p] already, at the
    version the manifest lists. *)
Definition resumed : Sync.world unit :=
  Sync.World tt
    {| Sync.subscription := subscribed;
       Sync.items := {["p" := p]};
       Sync.created := []; Sync.updated := []; Sync.deleted := [];
       Sync.version := Some 5%Z;
       Sync.versions := Some {["x" := 5%Z; "p" := 3%Z]} |}
    [].

(** A registry whose plugin fails, and one whose plugin succeeds. *)
Definition failing : Sync.Plugins := {|
  Sync.available := λ _, true;
  Sync.process := λ _ _, Some "disk full"
|}.

Definition working : Sync.Plugins := {|
  Sync.available := λ _, true;
  Sync.process := λ _ _, None
|}.

(** *** Stages of runs on the library at rest *)

(** The answer to the request for the batch [x]. *)
Definition first_batch : Sync.message := Sync.Message "json" 5 [x].

(** The world when the first batch has been requested, when it has been
    received, and when the loop of [download] has come to its end. *)
Definition after_fetch : Sync.world unit :=
  Sync.answered (Sync.GetItems ["x"]) tt (fresh tt).

Definition after_receive : Sync.world unit :=
  (Sync.Session.receive steady 1 first_batch (Some ["x"]) after_fetch).2.

Definition after_download : Sync.world unit :=
  (Sync.Session.download_loop steady 3 1 ["x"; "p"] after_receive).2.

(** The world in which [synchronize] starts to execute the session, and
    the one in which the execution ends. *)
Definition touched : Sync.world unit :=
  Sync.log Sync.Touch
    (Sync.with_session (λ _, Sync.new subscribed) (fresh tt)).

Definition executed : Sync.world unit :=
  (Sync.Session.execute steady 5 false None touched).2.

(** *** Manifests in several pages *)

(** A manifest in three pages, all of them at version 5; the last page
    lists [x] again, at a later version. *)
Definition long_listing : Sync.manifest :=
  Sync.Manifest false "json" 5 {["x" := 5%Z]} true
    [Sync.Page "json" 5 {["p" := 3%Z]}; Sync.Page "json" 5 {["x" := 4%Z]}].

Definition paged : Sync.Zotero unit := {|
  Sync.get_versions := λ s, (Sync.Reply long_listing, s);
  Sync.get_items := Sync.get_items steady;
  Sync.get_children := Sync.get_children steady
|}.

(** A manifest whose third page comes from a library that has changed
    in the meantime. *)
Definition torn_listing : Sync.manifest :=
  Sync.Manifest false "json" 5 {["x" := 5%Z]} true
    [Sync.Page "json" 5 {["p" := 3%Z]}; Sync.Page "json" 6 {["q" := 6%Z]};
     Sync.Page "json" 6 {["r" := 6%Z]}].

Definition torn : Sync.Zotero unit := {|
  Sync.get_versions := λ s, (Sync.Reply torn_listing, s);
  Sync.get_items := Sync.get_items steady;
  Sync.get_children := Sync.get_children steady
|}.

(** A library that has not changed since the subscription was last
    synchronized. *)
Definition unchanged : Sync.Zotero unit := {|
  Sync.get_versions := λ s,
    (Sync.Reply (Sync.Manifest true "json" 1 ∅ false []), s);
  Sync.get_items := Sync.get_items steady;
  Sync.get_children := Sync.get_children steady
|}.

(** A session that holds [p] and has never asked for the manifest. *)
Definition unlisted : Sync.world unit :=
  Sync.with_session (Sync.set_versions None) resumed.

End Scenario.

(* ===================================================================== *)
(** * Part II: theorems                                                    *)
(* ===================================================================== *)

(** ** The helpers of [lib/common.js] *)

Module commonFacts.
Section Scan.
Context {A : Type} (predicate : A → bool).

Lemma findIndex_from_none (lst : list A) (i : Z) :
  (0 ≤ i)%Z →
  common.findIndex_from i lst predicate = (-1)%Z →
  Forall (λ x, predicate x = false) lst.
Proof.
  revert i. induction lst as [|x rest IH]; intros i Hi; simpl.
  - constructor.
  - destruct (predicate x) eqn:Hx; [lia|].
    intros H. constructor; [done|]. apply (IH (i + 1)%Z); [lia|done].
Qed.

Lemma findIndex_from_found (lst : list A) (i : Z) :
  common.findIndex_from i lst predicate ≠ (-1)%Z →
  ∃ pre x post,
    lst = pre ++ x :: post ∧
    Forall (λ y, predicate y = false) pre ∧
    predicate x = true ∧
    common.findIndex_from i lst predicate = (i + Z.of_nat (length pre))%Z.
Proof.
  revert i. induction lst as [|x rest IH]; intros i; simpl; [done|].
  destruct (predicate x) eqn:Hx.
  - intros _. exists [], x, rest. simpl. repeat split; [constructor|done|lia].
  - intros H. destruct (IH _ H) as (pre & y & post & -> & Hpre & Hy & Hidx).
    exists (x :: pre), y, post. simpl.
    repeat split; [by constructor|done|lia].
Qed.

Lemma find_none (lst : list A) :
  common.find lst predicate = None ↔ Forall (λ x, predicate x = false) lst.
Proof.
  induction lst as [|x rest IH]; simpl.
  - split; [constructor|done].
  - destruct (predicate x) eqn:Hx.
    + split; [done|]. intros H. inversion H; congruence.
    + rewrite IH. split; [by constructor|]. by inversion 1.
Qed.

Lemma find_first (pre post : list A) (x : A) :
  Forall (λ y, predicate y = false) pre →
  predicate x = true →
  common.find (pre ++ x :: post) predicate = Some x.
Proof.
  induction 1 as [|y pre Hy _ IH]; intros Hx; simpl.
  - by rewrite Hx.
  - rewrite Hy. by apply IH.
Qed.

End Scan.
End commonFacts.

(** ** The listener *)

Module ListenerFacts.
Import Listener Listener.Private.

(** [remove] finds nothing exactly when no entry matches, and leaves the
    list alone then. *)
Lemma remove_none (lst : list registration) (key topic : option string) :
  Forall (λ s, by_ key topic s = false) lst →
  remove lst key topic = (None, lst).
Proof.
  intros Hall. unfold remove, common.findIndex.
  destruct (decide (common.findIndex_from 0 lst (by_ key topic) = (-1)%Z))
    as [->|Hne]; [done|].
  destruct (commonFacts.findIndex_from_found _ _ _ Hne)
    as (pre & x & post & -> & _ & Hx & _).
  apply Forall_app in Hall as [_ Hall]. inversion Hall; congruence.
Qed.

(** [remove] splices out the first match. *)
Lemma remove_first (pre post : list registration) (s : registration)
    (key topic : option string) :
  Forall (λ y, by_ key topic y = false) pre →
  by_ key topic s = true →
  remove (pre ++ s :: post) key topic = (Some s, pre ++ post).
Proof.
  intros Hpre Hs. unfold remove, common.findIndex.
  destruct (decide (common.findIndex_from 0 (pre ++ s :: post) (by_ key topic)
                    = (-1)%Z)) as [Hnone|Hne].
  { apply commonFacts.findIndex_from_none in Hnone; [|lia].
    apply Forall_app in Hnone as [_ Hnone]. inversion Hnone; congruence. }
  destruct (commonFacts.findIndex_from_found _ _ _ Hne)
    as (pre' & x & post' & Heq & Hpre' & Hx & ->).
  assert (length pre' = length pre) as Hlen.
  { destruct (Nat.lt_trichotomy (length pre') (length pre)) as [Hlt|[?|Hlt]];
      [|done|]; exfalso.
    - assert ((pre ++ s :: post) !! length pre' = Some x) as Hlook
        by (rewrite Heq; apply list_lookup_middle; done).
      rewrite lookup_app_l in Hlook by done.
      rewrite Forall_lookup in Hpre. apply Hpre in Hlook. congruence.
    - assert ((pre' ++ x :: post') !! length pre = Some s) as Hlook
        by (rewrite <- Heq; apply list_lookup_middle; done).
      rewrite lookup_app_l in Hlook by done.
      rewrite Forall_lookup in Hpre'. apply Hpre' in Hlook. congruence. }
  replace (0 + Z.of_nat (length pre') =? -1)%Z with false by lia.
  replace (Z.to_nat (0 + Z.of_nat (length pre'))) with (length pre) by lia.
  rewrite list_lookup_middle by done.
  f_equal. by rewrite delete_middle.
Qed.

(** Every list splits at its first match, if it has one. *)
Lemma first_match (P : registration → bool) (lst : list registration) :
  Forall (λ s, P s = false) lst ∨
  ∃ pre s post, lst = pre ++ s :: post ∧
    Forall (λ y, P y = false) pre ∧ P s = true.
Proof.
  induction lst as [|x rest IH].
  - left. constructor.
  - destruct (P x) eqn:Hx.
    + right. exists [], x, rest. repeat split; [constructor|done].
    + destruct IH as [IH|(pre & s & post & -> & Hpre & Hs)].
      * left. by constructor.
      * right. exists (x :: pre), s, post. repeat split; [by constructor|done].
Qed.

Lemma filter_none (P : registration → bool) (lst : list registration) :
  Forall (λ s, P s = false) lst →
  filter (λ s, P s) lst = [] ∧ filter (λ s, ¬ P s) lst = lst.
Proof.
  induction 1 as [|x rest Hx _ [IH1 IH2]]; [done|].
  rewrite filter_cons_False by (rewrite Hx; auto).
  rewrite filter_cons_True by (rewrite Hx; auto).
  by rewrite IH1, IH2.
Qed.

(** [resolve] returns when its fuel exceeds the length of the pending
    list, having moved every match, oldest first, to the end of the
    active list. *)
Lemma resolve_all (fuel : nat) (key topic : option string) (l : listener) :
  length (pending l) < fuel →
  resolve fuel key topic l =
    Returned
      {| current := current l ++ filter (λ s, by_ key topic s) (pending l);
         pending := filter (λ s, ¬ by_ key topic s) (pending l);
         emitted := emitted l ++
                    filter (λ s, by_ key topic s) (pending l) ≫= settle |}.
Proof.
  revert l. induction fuel as [|fuel IH]; intros [cur pend em]; simpl; [lia|].
  intros Hfuel.
  destruct (first_match (by_ key topic) pend)
    as [Hnone|(pre & s & post & -> & Hpre & Hs)].
  - rewrite remove_none by done.
    destruct (filter_none _ _ Hnone) as [-> ->]. simpl.
    by rewrite !app_nil_r.
  - rewrite remove_first by done.
    rewrite IH by (simpl; rewrite length_app in *; simpl in *; lia). simpl.
    destruct (filter_none _ _ Hpre) as [Hpre1 Hpre2].
    rewrite !filter_app, Hpre1, Hpre2.
    rewrite filter_cons_True by (rewrite Hs; done).
    rewrite filter_cons_False by (rewrite Hs; auto).
    simpl. by rewrite <- !app_assoc.
Qed.

(** One confirmation of one topic amounts to one call of [resolve]. *)
Lemma subscribed_single (fuel : nat) (key : option string) (topic : string)
    (l : listener) :
  subscribed fuel (Some [Confirmation key [topic]]) None l =
  resolve fuel key (Some topic) l.
Proof.
  unfold subscribed. simpl. by destruct (resolve fuel key (Some topic) l).
Qed.

(** C3 (amended): a single [subscriptionsCreated] confirmation for a
    credential and a topic settles every pending registration that [by]
    matches with the pair, not only the oldest: the handler returns, the
    matching registrations have left the pending list and stand at the end
    of the active list in the order in which they were registered (oldest
    first), each with its promise resolved and an [added] event emitted,
    and the pending registrations that do not match stay pending. *)
Theorem subscribed_settles_every_match (fuel : nat) (key : option string)
    (topic : string) (l : listener) :
  length (pending l) < fuel →
  subscribed fuel (Some [Confirmation key [topic]]) None l =
    Returned
      {| current :=
           current l ++ filter (λ s, by_ key (Some topic) s) (pending l);
         pending := filter (λ s, ¬ by_ key (Some topic) s) (pending l);
         emitted :=
           emitted l ++
           filter (λ s, by_ key (Some topic) s) (pending l) ≫= settle |}.
Proof.
  intros Hfuel. rewrite subscribed_single. by apply resolve_all.
Qed.

Lemma subscribed_settles_every_match_witness :
  length (pending Scenario.waiting) < 4 ∧
  subscribed 4 (Some Scenario.confirmed) None Scenario.waiting =
    Returned
      {| current := [Scenario.first_caller; Scenario.second_caller];
         pending := [Scenario.other_topic];
         emitted := [Resolved Scenario.first_caller;
                     Added Scenario.first_caller;
                     Resolved Scenario.second_caller;
                     Added Scenario.second_caller] |}.
Proof.
  split; [simpl; lia|].
  apply (subscribed_settles_every_match 4 (Some "K") Scenario.topic
           Scenario.waiting).
  simpl; lia.
Defined.

(** C3, as stated, fails: with two pending registrations for the same
    credential and topic, one confirmation settles both; the handler never
    returns with the second one still pending. *)
Lemma subscribed_settles_second_too :
  subscribed 4 (Some Scenario.confirmed) None Scenario.waiting =
    Returned
      {| current := [Scenario.first_caller; Scenario.second_caller];
         pending := [Scenario.other_topic];
         emitted := [Resolved Scenario.first_caller;
                     Added Scenario.first_caller;
                     Resolved Scenario.second_caller;
                     Added Scenario.second_caller] |} ∧
  ¬ ∃ fuel l',
      subscribed fuel (Some Scenario.confirmed) None Scenario.waiting
        = Returned l' ∧
      Scenario.second_caller ∈ pending l'.
Proof.
  split; [reflexivity|].
  intros (fuel & l' & Hrun & Hin).
  unfold Scenario.confirmed in Hrun. rewrite subscribed_single in Hrun.
  destruct (decide (length (pending Scenario.waiting) < fuel)) as [Hfuel|Hfuel].
  - rewrite resolve_all in Hrun by done.
    injection Hrun as <-. vm_compute in Hin.
    apply list_elem_of_singleton in Hin. discriminate.
  - simpl in Hfuel.
    do 3 (destruct fuel as [|fuel]; [vm_compute in Hrun; discriminate|]).
    destruct fuel as [|fuel]; [|lia].
    vm_compute in Hrun. injection Hrun as <-.
    apply list_elem_of_singleton in Hin. discriminate.
Qed.

(** When an active registration matches, [updated] finds the same one
    again at every turn of its loop: whatever the fuel, the loop is still
    running when it is used up, with one event emitted per turn, all of
    them for the first match. *)
Lemma updated_spins (fuel : nat) (data : notification) (l : listener)
    (s : registration) :
  common.find (current l) (by_ (n_apiKey data) (Some (n_topic data))) = Some s →
  updated fuel data l =
    Spinning {| current := current l; pending := pending l;
                emitted := emitted l ++ replicate fuel (Updated s) |}.
Proof.
  revert l. induction fuel as [|fuel IH]; intros [cur pend em] Hfind; simpl in *.
  - by rewrite app_nil_r.
  - rewrite Hfind, IH by done. simpl. by rewrite <- app_assoc.
Qed.

(** Without a match the handler returns at once and emits nothing. *)
Lemma updated_no_match (fuel : nat) (data : notification) (l : listener) :
  common.find (current l) (by_ (n_apiKey data) (Some (n_topic data))) = None →
  updated (S fuel) data l = Returned l.
Proof. intros Hfind. simpl. by rewrite Hfind. Qed.

(** C4 (code bug): with two active registrations for the credential and
    topic of a [topicUpdated] notification, the handler does not return:
    for every amount of fuel the loop is still running, it has emitted
    that many [updated] events for the first registration and none for
    the second. *)
Theorem updated_never_returns (fuel : nat) :
  updated fuel Scenario.notified Scenario.watching =
    Spinning
      {| current := [Scenario.first_caller; Scenario.second_caller];
         pending := [];
         emitted := replicate fuel (Updated Scenario.first_caller) |}.
Proof.
  by rewrite (updated_spins fuel _ _ Scenario.first_caller).
Qed.

(** With one argument [by] compares the local id. *)
Lemma by_id (subscription_id : string) (s : registration) :
  by_ (Some subscription_id) None s = bool_decide (id s = subscription_id).
Proof.
  unfold by_. apply bool_decide_ext. split; [by inversion 1|by intros ->].
Qed.

Lemma not_by_id (subscription_id : string) (lst : list registration) :
  Forall (λ s, id s ≠ subscription_id) lst →
  Forall (λ s, by_ (Some subscription_id) None s = false) lst.
Proof.
  intros Hall. eapply Forall_impl; [exact Hall|].
  intros s Hs. rewrite by_id. by apply bool_decide_eq_false.
Qed.

Lemma remove_not_registered (subscription_id : string)
    (unsubscribe : registration → stream_answer) (l : listener) :
  Forall (λ s, id s ≠ subscription_id) (current l) →
  Listener.remove subscription_id unsubscribe l =
    (RejectedWith "not registered", l).
Proof.
  intros Hall. unfold Listener.remove.
  by rewrite remove_none by by apply not_by_id.
Qed.

Lemma remove_registered (subscription_id : string)
    (unsubscribe : registration → stream_answer) (l : listener)
    (pre post : list registration) (s : registration) :
  current l = pre ++ s :: post →
  Forall (λ y, id y ≠ subscription_id) pre →
  id s = subscription_id →
  Listener.remove subscription_id unsubscribe l =
    (match unsubscribe s with
     | Some error => RejectedWith error
     | None => Fulfilled s
     end,
     {| current := pre ++ post; pending := pending l;
        emitted := emitted l |}).
Proof.
  intros Hcur Hpre Hs. unfold Listener.remove. rewrite Hcur.
  rewrite remove_first;
    [|by apply not_by_id|by rewrite by_id; apply bool_decide_eq_true].
  by destruct (unsubscribe s).
Qed.

(** C5 (amended): [remove] fails with 'not registered' and leaves the
    active set alone when no active registration has the subscription's
    id.  When one has it, the first such registration leaves the active
    set at once, before the stream is asked to unsubscribe: the active
    set is the same whether the unsubscribe succeeds (the call yields the
    registration) or fails (the call fails with the stream's error). *)
Theorem remove_before_unsubscribe (subscription_id : string)
    (unsubscribe : registration → stream_answer) (l : listener) :
  (Forall (λ s, id s ≠ subscription_id) (current l) →
   Listener.remove subscription_id unsubscribe l =
     (RejectedWith "not registered", l)) ∧
  (∀ pre s post,
     current l = pre ++ s :: post →
     Forall (λ y, id y ≠ subscription_id) pre →
     id s = subscription_id →
     Listener.remove subscription_id unsubscribe l =
       (match unsubscribe s with
        | Some error => RejectedWith error
        | None => Fulfilled s
        end,
        {| current := pre ++ post; pending := pending l;
           emitted := emitted l |})).
Proof.
  split.
  - apply remove_not_registered.
  - intros pre s post. apply remove_registered.
Qed.

(** C5, as stated, fails: the unsubscribe fails, the call fails, and the
    registration is no longer in the active set. *)
Lemma remove_despite_failure :
  Scenario.first_caller ∈ current Scenario.watching ∧
  (Listener.remove "s1" Scenario.closed_stream Scenario.watching).1
    = RejectedWith "socket closed" ∧
  Scenario.first_caller ∉
    current (Listener.remove "s1" Scenario.closed_stream Scenario.watching).2.
Proof.
  split; [|split].
  - apply list_elem_of_here.
  - reflexivity.
  - rewrite (remove_registered "s1" _ _ [] [Scenario.second_caller]
               Scenario.first_caller) by (done || constructor).
    simpl. intros Hin. apply list_elem_of_singleton in Hin. discriminate.
Qed.

(** *** The private helper [remove] *)

(** X1: [remove(list, key, topic)] either finds no entry that [by]
    matches and leaves the list alone, or splices out exactly the first
    match: the entries before it and after it stay, in their order. *)
Theorem remove_splices_first_match (lst : list registration)
    (key topic : option string) :
  match remove lst key topic with
  | (Some s, lst') =>
      ∃ pre post,
        lst = pre ++ s :: post ∧ lst' = pre ++ post ∧
        Forall (λ y, by_ key topic y = false) pre ∧ by_ key topic s = true
  | (None, lst') =>
      lst' = lst ∧ Forall (λ y, by_ key topic y = false) lst
  end.
Proof.
  destruct (first_match (by_ key topic) lst)
    as [Hnone|(pre & s & post & -> & Hpre & Hs)].
  - rewrite remove_none by done. by split.
  - rewrite remove_first by done. by exists pre, post.
Qed.

(** *** [reject] *)

(** [reject] returns when its fuel exceeds the length of the pending
    list, having rejected every match, oldest first. *)
Lemma reject_all (fuel : nat) (key topic : option string) (reason : string)
    (l : listener) :
  length (pending l) < fuel →
  reject fuel key topic reason l =
    Returned
      {| current := current l;
         pending := filter (λ s, ¬ by_ key topic s) (pending l);
         emitted := emitted l ++
                    filter (λ s, by_ key topic s) (pending l) ≫= refuse reason |}.
Proof.
  revert l. induction fuel as [|fuel IH]; intros [cur pend em]; simpl; [lia|].
  intros Hfuel.
  destruct (first_match (by_ key topic) pend)
    as [Hnone|(pre & s & post & -> & Hpre & Hs)].
  - rewrite remove_none by done.
    destruct (filter_none _ _ Hnone) as [-> ->]. simpl.
    by rewrite !app_nil_r.
  - rewrite remove_first by done.
    rewrite IH by (simpl; rewrite length_app in *; simpl in *; lia). simpl.
    destruct (filter_none _ _ Hpre) as [Hpre1 Hpre2].
    rewrite !filter_app, Hpre1, Hpre2.
    rewrite filter_cons_False by (rewrite Hs; auto).
    rewrite filter_cons_True by (rewrite Hs; done).
    simpl. by rewrite <- !app_assoc.
Qed.

(** One error for one topic amounts to one call of [reject]. *)
Lemma subscribed_single_error (fuel : nat) (key : option string)
    (topic reason : string) (l : listener) :
  subscribed fuel None (Some [Failure key topic reason]) l =
  reject fuel key (Some topic) reason l.
Proof.
  unfold subscribed. simpl. by destruct (reject fuel key (Some topic) reason l).
Qed.

(** X2: an entry of the [errors] of a [subscriptionsCreated] message
    rejects every pending registration that [by] matches with its
    credential and topic, oldest first, each with an [error] event that
    carries the reason; none of them becomes active, and the pending
    registrations that do not match stay pending.  (The events are taken
    as emitted: a listener for [error] is registered.) *)
Theorem subscribed_rejects_every_match (fuel : nat) (key : option string)
    (topic reason : string) (l : listener) :
  length (pending l) < fuel →
  subscribed fuel None (Some [Failure key topic reason]) l =
    Returned
      {| current := current l;
         pending := filter (λ s, ¬ by_ key (Some topic) s) (pending l);
         emitted :=
           emitted l ++
           filter (λ s, by_ key (Some topic) s) (pending l) ≫= refuse reason |}.
Proof.
  intros Hfuel. rewrite subscribed_single_error. by apply reject_all.
Qed.

Lemma subscribed_rejects_every_match_witness :
  length (pending Scenario.waiting) < 4 ∧
  subscribed 4 None (Some [Failure (Some "K") Scenario.topic "forbidden"])
    Scenario.waiting =
    Returned
      {| current := [];
         pending := [Scenario.other_topic];
         emitted := [Rejected Scenario.first_caller;
                     Failed Scenario.first_caller "forbidden";
                     Rejected Scenario.second_caller;
                     Failed Scenario.second_caller "forbidden"] |}.
Proof.
  split; [simpl; lia|].
  apply (subscribed_rejects_every_match 4 (Some "K") Scenario.topic
           "forbidden" Scenario.waiting).
  simpl; lia.
Defined.

(** *** No registration is lost *)

Lemma added_of_settle (lst : list registration) :
  added_of (lst ≫= settle) = lst ∧ rejected_of (lst ≫= settle) = [].
Proof.
  induction lst as [|s lst [IH1 IH2]]; [done|].
  split; simpl; [by f_equal|done].
Qed.

Lemma rejected_of_refuse (reason : string) (lst : list registration) :
  added_of (lst ≫= refuse reason) = [] ∧
  rejected_of (lst ≫= refuse reason) = lst.
Proof.
  induction lst as [|s lst [IH1 IH2]]; [done|].
  split; simpl; [done|by f_equal].
Qed.

Lemma settles_refl (l : listener) : settles l l.
Proof.
  exists []. simpl. rewrite !app_nil_r. by repeat split.
Qed.

Lemma settles_trans (l1 l2 l3 : listener) :
  settles l1 l2 → settles l2 l3 → settles l1 l3.
Proof.
  intros (evs1 & Hem1 & Hcur1 & Hperm1 & Hsub1)
         (evs2 & Hem2 & Hcur2 & Hperm2 & Hsub2).
  exists (evs1 ++ evs2). unfold added_of, rejected_of in *.
  rewrite !omap_app. repeat split.
  - by rewrite Hem2, Hem1, <- app_assoc.
  - by rewrite Hcur2, Hcur1, <- app_assoc.
  - rewrite Hperm1, Hperm2. rewrite <- !app_assoc.
    apply Permutation_app_head.
    rewrite !(app_assoc (omap _ evs2)).
    etrans; [apply Permutation_app_comm|].
    rewrite <- !app_assoc. apply Permutation_app_head.
    apply Permutation_app_swap_app.
  - by etrans.
Qed.

Lemma settles_length (l l' : listener) :
  settles l l' → length (pending l') ≤ length (pending l).
Proof. intros (evs & _ & _ & _ & Hsub). by apply sublist_length. Qed.

Lemma resolve_settles (fuel : nat) (key topic : option string) (l : listener) :
  length (pending l) < fuel →
  ∃ l', resolve fuel key topic l = Returned l' ∧ settles l l'.
Proof.
  intros Hfuel. eexists. split; [by apply resolve_all|].
  exists (filter (λ s, by_ key topic s) (pending l) ≫= settle). simpl.
  destruct (added_of_settle (filter (λ s, by_ key topic s) (pending l)))
    as [-> ->].
  repeat split.
  - rewrite app_nil_r.
    rewrite <- (filter_app_complement (λ s, by_ key topic s) (pending l)) at 1.
    apply Permutation_app_comm.
  - apply sublist_filter.
Qed.

Lemma reject_settles (fuel : nat) (key topic : option string)
    (reason : string) (l : listener) :
  length (pending l) < fuel →
  ∃ l', reject fuel key topic reason l = Returned l' ∧ settles l l'.
Proof.
  intros Hfuel. eexists. split; [by apply reject_all|].
  exists (filter (λ s, by_ key topic s) (pending l) ≫= refuse reason). simpl.
  destruct (rejected_of_refuse reason
              (filter (λ s, by_ key topic s) (pending l))) as [-> ->].
  repeat split.
  - by rewrite app_nil_r.
  - simpl.
    rewrite <- (filter_app_complement (λ s, by_ key topic s) (pending l)) at 1.
    apply Permutation_app_comm.
  - apply sublist_filter.
Qed.

(** A loop that follows one that has settled registrations starts with
    no more pending registrations than the first. *)
Lemma then_settles (fuel : nat) (r : run) (k : listener → run) (l l1 : listener) :
  length (pending l) < fuel →
  r = Returned l1 → settles l l1 →
  (∀ l1, length (pending l1) < fuel →
         ∃ l2, k l1 = Returned l2 ∧ settles l1 l2) →
  ∃ l2, then_ r k = Returned l2 ∧ settles l l2.
Proof.
  intros Hfuel -> Hl1 Hk. simpl.
  destruct (Hk l1) as (l2 & Hl2 & Hs2).
  { apply settles_length in Hl1. lia. }
  exists l2. split; [done|]. by eapply settles_trans.
Qed.

Lemma subscribed_topics_settles (fuel : nat) (key : option string)
    (topics : list string) (l : listener) :
  length (pending l) < fuel →
  ∃ l', subscribed_topics fuel key topics l = Returned l' ∧ settles l l'.
Proof.
  revert l. induction topics as [|topic rest IH]; intros l Hfuel; simpl.
  - exists l. split; [done|apply settles_refl].
  - destruct (resolve_settles fuel key (Some topic) l Hfuel) as (l1 & Hr & Hs).
    by eapply then_settles.
Qed.

Lemma subscribed_confirmations_settles (fuel : nat)
    (subscriptions : list confirmation) (l : listener) :
  length (pending l) < fuel →
  ∃ l', subscribed_confirmations fuel subscriptions l = Returned l' ∧
        settles l l'.
Proof.
  revert l. induction subscriptions as [|c rest IH]; intros l Hfuel; simpl.
  - exists l. split; [done|apply settles_refl].
  - destruct (subscribed_topics_settles fuel (apiKey c) (topics c) l Hfuel)
      as (l1 & Hr & Hs).
    by eapply then_settles.
Qed.

Lemma subscribed_errors_settles (fuel : nat) (errors : list failure)
    (l : listener) :
  length (pending l) < fuel →
  ∃ l', subscribed_errors fuel errors l = Returned l' ∧ settles l l'.
Proof.
  revert l. induction errors as [|e rest IH]; intros l Hfuel; simpl.
  - exists l. split; [done|apply settles_refl].
  - destruct (reject_settles fuel (f_apiKey e) (Some (f_topic e)) (f_error e)
                l Hfuel) as (l1 & Hr & Hs).
    by eapply then_settles.
Qed.

(** X3: whatever confirmations and errors a [subscriptionsCreated]
    message carries, the handler returns, and it loses no registration
    and settles none twice: the pending list it started with is, up to
    the order, what is left pending, what it has appended to the active
    list (one [added] event each) and what it has rejected; the
    registrations left pending keep their order, and the active list only
    grows at its end. *)
Theorem subscribed_conserves_registrations (fuel : nat)
    (subscriptions : option (list confirmation))
    (errors : option (list failure)) (l : listener) :
  length (pending l) < fuel →
  ∃ l', subscribed fuel subscriptions errors l = Returned l' ∧ settles l l'.
Proof.
  intros Hfuel. unfold subscribed.
  assert (∃ l1,
    match subscriptions with
    | Some subscriptions => subscribed_confirmations fuel subscriptions l
    | None => Returned l
    end = Returned l1 ∧ settles l l1) as (l1 & Hr & Hs).
  { destruct subscriptions as [subscriptions|].
    - by apply subscribed_confirmations_settles.
    - exists l. split; [done|apply settles_refl]. }
  eapply then_settles; [exact Hfuel|exact Hr|exact Hs|].
  intros l2 Hl2. destruct errors as [errors|].
  - by apply subscribed_errors_settles.
  - exists l2. split; [done|apply settles_refl].
Qed.

Lemma subscribed_conserves_registrations_witness :
  length (pending Scenario.waiting) < 4 ∧
  ∃ l',
    subscribed 4 (Some Scenario.confirmed)
      (Some [Failure (Some "K") "/groups/7/items" "forbidden"])
      Scenario.waiting = Returned l' ∧
    settles Scenario.waiting l'.
Proof.
  split; [simpl; lia|].
  apply (subscribed_conserves_registrations 4 (Some Scenario.confirmed)
           (Some [Failure (Some "K") "/groups/7/items" "forbidden"])
           Scenario.waiting).
  simpl; lia.
Defined.

(** *** [updated] *)

(** X4: the [topicUpdated] handler returns exactly when no active
    registration matches the credential and topic of the notification,
    and then it has changed nothing and emitted nothing. *)
Theorem updated_returns_iff_no_match (data : notification) (l : listener) :
  ((∃ fuel l', updated fuel data l = Returned l') ↔
   common.find (current l) (by_ (n_apiKey data) (Some (n_topic data))) = None) ∧
  (∀ fuel l', updated fuel data l = Returned l' → l' = l).
Proof.
  destruct (common.find (current l)
              (by_ (n_apiKey data) (Some (n_topic data)))) as [s|] eqn:Hfind.
  - split.
    + split; [|done]. intros (fuel & l' & Hrun).
      by rewrite (updated_spins fuel data l s) in Hrun.
    + intros fuel l' Hrun. by rewrite (updated_spins fuel data l s) in Hrun.
  - split.
    + split; [done|]. intros _. exists 1, l. by apply updated_no_match.
    + intros [|fuel] l' Hrun; [done|].
      rewrite updated_no_match in Hrun by done. by injection Hrun.
Qed.

(** *** [add], then the confirmation *)

(** A registration with a topic matches its own credential and topic. *)
Lemma by_self (s : registration) :
  path s ≠ "" → by_ (key s) (Some (path s)) s = true.
Proof.
  intros Hpath. unfold by_. destruct (path s) as [|a t] eqn:Hp; [done|].
  rewrite <- Hp. by rewrite !bool_decide_eq_true_2.
Qed.

(** X5: a subscription that [add] has registered (the stream accepted
    the request, the promise is pending) is settled by the confirmation
    of its credential and topic: the handler returns, the registration is
    the last of the active list, it is no longer pending, and the last
    event is its [added] event. *)
Theorem add_then_confirmed (s : registration) (l : listener) (fuel : nat) :
  path s ≠ "" →
  length (pending l) + 1 < fuel →
  (add s None l).1 = Pending ∧
  ∃ l',
    subscribed fuel (Some [Confirmation (key s) [path s]]) None
      (add s None l).2 = Returned l' ∧
    last (current l') = Some s ∧
    (s ∉ pending l') ∧
    last (emitted l') = Some (Added s).
Proof.
  intros Hpath Hfuel. split; [done|].
  pose proof (by_self s Hpath) as Hs.
  change (add s None l).2 with (register s l).
  eexists. split.
  { rewrite subscribed_single. apply resolve_all. simpl.
    rewrite length_app. simpl. lia. }
  unfold register. cbn [current pending emitted]. rewrite filter_app.
  rewrite (filter_cons_True _ s []) by (rewrite Hs; done).
  rewrite filter_nil. repeat split.
  - by rewrite app_assoc, last_snoc.
  - intros [Hno _]%list_elem_of_filter. apply Hno. by rewrite Hs.
  - rewrite bind_app. cbn [mbind list_bind settle app].
    change [Resolved s; Added s] with ([Resolved s] ++ [Added s]).
    by rewrite !app_assoc, last_snoc.
Qed.

Lemma add_then_confirmed_witness :
  (add Scenario.other_topic None Scenario.watching).1 = Pending ∧
  ∃ l',
    subscribed 3 (Some [Confirmation (Some "K") ["/groups/7/items"]]) None
      (add Scenario.other_topic None Scenario.watching).2 = Returned l' ∧
    last (current l') = Some Scenario.other_topic ∧
    (Scenario.other_topic ∉ pending l') ∧
    last (emitted l') = Some (Added Scenario.other_topic).
Proof.
  apply (add_then_confirmed Scenario.other_topic Scenario.watching 3).
  - discriminate.
  - simpl. lia.
Defined.

(** *** [remove], twice *)

Lemma filter_other_ids (subscription_id : string) (lst : list registration) :
  Forall (λ s, id s ≠ subscription_id) lst →
  filter (λ s, id s ≠ subscription_id) lst = lst.
Proof.
  induction 1 as [|s lst Hs _ IH]; [done|].
  by rewrite filter_cons_True, IH.
Qed.

(** X6: when the local ids of the active registrations are distinct,
    [remove] leaves active exactly the registrations with another id, in
    their order, and a second [remove] of the same subscription fails
    with 'not registered' and changes nothing, whatever the stream
    answered to the first. *)
Theorem remove_is_final (subscription_id : string)
    (unsubscribe unsubscribe' : registration → stream_answer) (l : listener) :
  NoDup (id <$> current l) →
  current (Listener.remove subscription_id unsubscribe l).2 =
    filter (λ s, id s ≠ subscription_id) (current l) ∧
  Listener.remove subscription_id unsubscribe'
    (Listener.remove subscription_id unsubscribe l).2 =
    (RejectedWith "not registered",
     (Listener.remove subscription_id unsubscribe l).2).
Proof.
  intros Hnodup.
  destruct (first_match (λ s, bool_decide (id s = subscription_id)) (current l))
    as [Hnone|(pre & s & post & Hcur & Hpre & Hs)].
  - assert (Forall (λ s, id s ≠ subscription_id) (current l)) as Hall.
    { eapply Forall_impl; [exact Hnone|].
      intros s Hs. by apply bool_decide_eq_false in Hs. }
    rewrite remove_not_registered by done. simpl.
    split; [by rewrite filter_other_ids|by apply remove_not_registered].
  - apply bool_decide_eq_true in Hs.
    assert (Forall (λ y, id y ≠ subscription_id) pre) as Hpre'.
    { eapply Forall_impl; [exact Hpre|].
      intros y Hy. by apply bool_decide_eq_false in Hy. }
    assert (Forall (λ y, id y ≠ subscription_id) post) as Hpost.
    { rewrite Hcur, fmap_app, fmap_cons in Hnodup.
      apply NoDup_app in Hnodup as (_ & _ & Hnodup).
      apply NoDup_cons in Hnodup as [Hnotin _].
      apply Forall_forall. intros y Hy Heq. apply Hnotin.
      rewrite Hs, <- Heq. by apply list_elem_of_fmap_2. }
    rewrite (remove_registered subscription_id unsubscribe l pre post s)
      by done.
    simpl. split.
    + rewrite Hcur, filter_app, filter_cons_False by (by intros H; apply H).
      by rewrite !filter_other_ids.
    + apply remove_not_registered. simpl. by apply Forall_app.
Qed.

Lemma remove_is_final_witness :
  current (Listener.remove "s1" Scenario.closed_stream Scenario.watching).2 =
    filter (λ s, id s ≠ "s1") (current Scenario.watching) ∧
  Listener.remove "s1" (λ _, None)
    (Listener.remove "s1" Scenario.closed_stream Scenario.watching).2 =
    (RejectedWith "not registered",
     (Listener.remove "s1" Scenario.closed_stream Scenario.watching).2).
Proof.
  apply (remove_is_final "s1" Scenario.closed_stream (λ _, None)
           Scenario.watching).
  apply NoDup_cons. split; [|apply NoDup_singleton].
  intros Hin. apply list_elem_of_singleton in Hin. discriminate.
Defined.

End ListenerFacts.

(** ** Computations *)

Module MFacts.
Import Sync.
Section Computations.
Context {σ : Type}.

Lemma bind_done {A B} (m : M σ A) (k : A → M σ B) (w w1 : world σ) (a : A) :
  m w = (Done a, w1) → (m ≫= k) w = k a w1.
Proof. intros H. unfold mbind, M_bind, bind. by rewrite H. Qed.

Lemma bind_raise {A B} (m : M σ A) (k : A → M σ B) (w w1 : world σ)
    (e : error) :
  m w = (Raise e, w1) → (m ≫= k) w = (Raise e, w1).
Proof. intros H. unfold mbind, M_bind, bind. by rewrite H. Qed.

Lemma bind_out_of_fuel {A B} (m : M σ A) (k : A → M σ B) (w w1 : world σ) :
  m w = (OutOfFuel, w1) → (m ≫= k) w = (OutOfFuel, w1).
Proof. intros H. unfold mbind, M_bind, bind. by rewrite H. Qed.

(** How a sequence ended tells how its first part ended. *)
Lemma bind_inv {A B} (m : M σ A) (k : A → M σ B) (w w' : world σ)
    (r : outcome B) :
  (m ≫= k) w = (r, w') →
  (∃ a w1, m w = (Done a, w1) ∧ k a w1 = (r, w')) ∨
  (∃ e, m w = (Raise e, w') ∧ r = Raise e) ∨
  (m w = (OutOfFuel, w') ∧ r = OutOfFuel).
Proof.
  unfold mbind, M_bind, bind. destruct (m w) as [[a|e|] w1]; intros H.
  - left. by exists a, w1.
  - right. left. exists e. by injection H as <- <-.
  - right. right. by injection H as <- <-.
Qed.

Lemma bind_inv_done {A B} (m : M σ A) (k : A → M σ B) (w w' : world σ)
    (b : B) :
  (m ≫= k) w = (Done b, w') →
  ∃ a w1, m w = (Done a, w1) ∧ k a w1 = (Done b, w').
Proof.
  intros H. apply bind_inv in H as [H|[(e & _ & ?)|[_ ?]]]; done.
Qed.

(** *** Runs as sequences of steps *)

Section Runs.
Variable d : bool.

Lemma runs_ret {A} (a : A) : runs d (mret a : M σ A).
Proof. intros w r w' H. injection H as <- <-. done. Qed.

Lemma runs_throw {A} (e : error) : runs d (throw e : M σ A).
Proof. intros w r w' H. injection H as <- <-. done. Qed.

Lemma runs_out_of_fuel {A} : runs d (out_of_fuel : M σ A).
Proof. intros w r w' H. injection H as <- <-. done. Qed.

Lemma runs_gets {A} (f : session → A) : runs d (gets f : M σ A).
Proof. intros w r w' H. injection H as <- <-. done. Qed.

Lemma runs_lift {A} (r : outcome A) : runs d (lift r : M σ A).
Proof. intros w r' w' H. injection H as <- <-. done. Qed.

Lemma runs_bind {A B} (m : M σ A) (k : A → M σ B) :
  runs d m → (∀ a, runs d (k a)) → runs d (m ≫= k).
Proof.
  intros Hm Hk w r w' H.
  apply bind_inv in H as [(a & w1 & H1 & H2)|[(e & H1 & _)|[H1 _]]].
  - etrans; [by eapply Hm|by eapply Hk].
  - by eapply Hm.
  - by eapply Hm.
Qed.

Lemma runs_try_catch {A} (m : M σ A) (handler : error → M σ A) :
  runs d m → (∀ e, runs d (handler e)) → runs d (try_catch m handler).
Proof.
  intros Hm Hh w r w' H. unfold try_catch in H.
  destruct (m w) as [[a|e|] w1] eqn:H1.
  - injection H as <- <-. by eapply Hm.
  - etrans; [by eapply Hm|by eapply Hh].
  - injection H as <- <-. by eapply Hm.
Qed.

Lemma runs_modify (f : world σ → world σ) :
  (∀ w, step d w (f w)) → runs d (modify f).
Proof. intros Hf w r w' H. injection H as <- <-. by apply rtc_once. Qed.

Lemma runs_request {A} (e : event) (call : σ → reply A * σ) :
  is_request e = true → runs d (request e call).
Proof.
  intros He w r w' H. unfold request in H.
  destruct (call (remote w)) as [[response|reason] s];
    injection H as <- <-; by apply rtc_once, step_request.
Qed.

Lemma runs_assert_equal (expected actual : string) :
  runs d (assert_equal expected actual : M σ unit).
Proof.
  unfold assert_equal. case_bool_decide; [apply runs_ret|apply runs_throw].
Qed.

End Runs.

(** A run without delays is a run. *)
Lemma steps_delays (d : bool) (w w' : world σ) :
  rtc (step false) w w' → rtc (step d) w w'.
Proof.
  induction 1 as [|w1 w2 w3 Hstep _ IH]; [done|].
  etrans; [|exact IH]. apply rtc_once.
  destruct Hstep; by constructor.
Qed.

(** A sequence returns when its first part returns and what follows it
    returns. *)
Lemma bind_returns {A B} (m : M σ A) (k : A → M σ B) (w : world σ) :
  (m w).1 ≠ OutOfFuel →
  (∀ a w1, m w = (Done a, w1) → (k a w1).1 ≠ OutOfFuel) →
  ((m ≫= k) w).1 ≠ OutOfFuel.
Proof.
  intros Hm Hk. unfold mbind, M_bind, bind.
  destruct (m w) as [[a|e|] w1]; [by apply Hk|done|done].
Qed.

(** *** More fuel changes no result *)

Lemma refines_refl {A} (m : M σ A) : refines m m.
Proof. by intros w r w' H _. Qed.

Lemma refines_out_of_fuel {A} (m : M σ A) : refines out_of_fuel m.
Proof. intros w r w' [= <- <-] Hr. done. Qed.

Lemma refines_bind {A B} (m m' : M σ A) (k k' : A → M σ B) :
  refines m m' → (∀ a, refines (k a) (k' a)) →
  refines (m ≫= k) (m' ≫= k').
Proof.
  intros Hm Hk w r w' H Hr.
  apply bind_inv in H as [(a & w1 & H1 & H2)|[(e & H1 & Heq)|[_ Heq]]].
  - erewrite bind_done by (by apply Hm). by apply Hk.
  - subst r. apply bind_raise. by apply Hm.
  - done.
Qed.

Lemma refines_try_catch {A} (m m' : M σ A) (h h' : error → M σ A) :
  refines m m' → (∀ e, refines (h e) (h' e)) →
  refines (try_catch m h) (try_catch m' h').
Proof.
  intros Hm Hh w r w' H Hr. unfold try_catch in *.
  destruct (m w) as [[a|e|] w1] eqn:H1.
  - by rewrite (Hm _ _ _ H1).
  - rewrite (Hm _ _ _ H1) by done. by apply Hh.
  - by injection H as <- <-.
Qed.

(** Two runs of a computation that more fuel does not change end alike,
    whatever their fuel, unless one of them runs out of it. *)
Lemma refines_agree {A} (f : nat → M σ A) (n1 n2 : nat) (w w1 w2 : world σ)
    (r1 r2 : outcome A) :
  (∀ n n', n ≤ n' → refines (f n) (f n')) →
  f n1 w = (r1, w1) → r1 ≠ OutOfFuel →
  f n2 w = (r2, w2) → r2 ≠ OutOfFuel →
  (r1, w1) = (r2, w2).
Proof.
  intros Hmono H1 Hr1 H2 Hr2.
  pose proof (Hmono n1 (n1 `max` n2) ltac:(lia) _ _ _ H1 Hr1) as H1'.
  pose proof (Hmono n2 (n1 `max` n2) ltac:(lia) _ _ _ H2 Hr2) as H2'.
  congruence.
Qed.

End Computations.

(** Splits the goal [refines m m'] along the common structure of the two
    computations. *)
Ltac refines_step :=
  lazymatch goal with
  | |- refines ?m ?m => apply refines_refl
  | |- refines out_of_fuel _ => apply refines_out_of_fuel
  | |- refines (mbind _ _) (mbind _ _) => apply refines_bind; [|intros ?]
  | |- refines (try_catch _ _) (try_catch _ _) =>
      apply refines_try_catch; [|intros ?]
  end.

(** Splits the goal [runs m] along the structure of [m]. *)
Ltac runs_step :=
  lazymatch goal with
  | |- runs _ (mret _) => apply runs_ret
  | |- runs _ (throw _) => apply runs_throw
  | |- runs _ out_of_fuel => apply runs_out_of_fuel
  | |- runs _ (gets _) => apply runs_gets
  | |- runs _ (lift _) => apply runs_lift
  | |- runs _ (assert_equal _ _) => apply runs_assert_equal
  | |- runs _ (request _ _) => apply runs_request; reflexivity
  | |- runs _ (modify _) =>
      apply runs_modify; intros ?; solve [constructor; try reflexivity]
  | |- runs _ (mbind _ _) => apply runs_bind; [|intros ?]
  | |- runs _ (try_catch _ _) => apply runs_try_catch; [|intros ?]
  end.

End MFacts.

(** ** Invariants of computations *)

Module Invariants.
Import Sync MFacts.

Section Keeps.
Context {σ : Type} (I : relation (world σ)) `{!PreOrder I}.

Lemma keeps_ret {A} (a : A) : keeps I (mret a : M σ A).
Proof. intros w r w' H. injection H as <- <-. reflexivity. Qed.

Lemma keeps_throw {A} (e : error) : keeps I (throw e : M σ A).
Proof. intros w r w' H. injection H as <- <-. reflexivity. Qed.

Lemma keeps_out_of_fuel {A} : keeps I (out_of_fuel : M σ A).
Proof. intros w r w' H. injection H as <- <-. reflexivity. Qed.

Lemma keeps_gets {A} (f : session → A) : keeps I (gets f : M σ A).
Proof. intros w r w' H. injection H as <- <-. reflexivity. Qed.

Lemma keeps_lift {A} (r : outcome A) : keeps I (lift r : M σ A).
Proof. intros w r' w' H. injection H as <- <-. reflexivity. Qed.

Lemma keeps_bind {A B} (m : M σ A) (k : A → M σ B) :
  keeps I m → (∀ a, keeps I (k a)) → keeps I (m ≫= k).
Proof.
  intros Hm Hk w r w' H.
  apply bind_inv in H as [(a & w1 & H1 & H2)|[(e & H1 & _)|[H1 _]]].
  - etrans; [by eapply Hm|by eapply Hk].
  - by eapply Hm.
  - by eapply Hm.
Qed.

Lemma keeps_try_catch {A} (m : M σ A) (handler : error → M σ A) :
  keeps I m → (∀ e, keeps I (handler e)) → keeps I (try_catch m handler).
Proof.
  intros Hm Hh w r w' H. unfold try_catch in H.
  destruct (m w) as [[a|e|] w1] eqn:H1.
  - injection H as <- <-. by eapply Hm.
  - etrans; [by eapply Hm|by eapply Hh].
  - injection H as <- <-. by eapply Hm.
Qed.

Lemma keeps_modify (f : world σ → world σ) :
  (∀ w, I w (f w)) → keeps I (modify f).
Proof. intros Hf w r w' H. injection H as <- <-. apply Hf. Qed.

Lemma keeps_request {A} (e : event) (call : σ → reply A * σ) :
  (∀ s w, I w (answered e s w)) → keeps I (request e call).
Proof.
  intros He w r w' H. unfold request in H.
  destruct (call (remote w)) as [[response|reason] s];
    injection H as <- <-; apply He.
Qed.

Lemma keeps_assert_equal (expected actual : string) :
  keeps I (assert_equal expected actual : M σ unit).
Proof.
  unfold assert_equal. case_bool_decide; [apply keeps_ret|apply keeps_throw].
Qed.

End Keeps.

Section Calls.
Context {σ : Type} (P : event → Prop).

Lemma emits_session (f : session → session) (w : world σ) :
  emits P w (with_session f w).
Proof. exists []. split; [simpl; by rewrite app_nil_r|constructor]. Qed.

Lemma emits_log (e : event) (w : world σ) : P e → emits P w (log e w).
Proof. intros He. exists [e]. split; [done|by repeat constructor]. Qed.

Lemma emits_answered (e : event) (s : σ) (w : world σ) :
  P e → emits P w (answered e s w).
Proof. intros He. exists [e]. split; [done|by repeat constructor]. Qed.

Lemma emits_impl (Q : event → Prop) (w w' : world σ) :
  (∀ e, P e → Q e) → emits P w w' → emits Q w w'.
Proof.
  intros HPQ (evs & Htr & Hevs). exists evs. split; [done|].
  eapply Forall_impl; [exact Hevs|exact HPQ].
Qed.

End Calls.

(** Splits the goal [keeps I m] along the structure of [m]; what a change
    of the world or a request has to satisfy is left to [tac]. *)
Ltac keeps_step tac :=
  lazymatch goal with
  | |- keeps _ (mret _) => apply keeps_ret; try apply _
  | |- keeps _ (throw _) => apply keeps_throw; try apply _
  | |- keeps _ out_of_fuel => apply keeps_out_of_fuel; try apply _
  | |- keeps _ (gets _) => apply keeps_gets; try apply _
  | |- keeps _ (lift _) => apply keeps_lift; try apply _
  | |- keeps _ (assert_equal _ _) => apply keeps_assert_equal; try apply _
  | |- keeps _ (request _ _) =>
      apply keeps_request; try apply _; intros ? ?; tac
  | |- keeps _ (modify _) => apply keeps_modify; try apply _; intros ?; tac
  | |- keeps _ (mbind _ _) => apply keeps_bind; try apply _; [|intros ?]
  | |- keeps _ (try_catch _ _) =>
      apply keeps_try_catch; try apply _; [|intros ?]
  end.

End Invariants.

(** ** The session *)

Module SessionFacts.
Import Sync MFacts.

(** *** [diff] *)

Lemma filter_cons_bool {A : Type} (P : A → bool) (x : A) (l : list A) :
  filter (λ y, P y) (x :: l) =
    if P x then x :: filter (λ y, P y) l else filter (λ y, P y) l.
Proof.
  destruct (P x) eqn:H.
  - rewrite filter_cons_True; [done|]. by apply Is_true_true.
  - rewrite filter_cons_False; [done|]. by apply Is_true_false.
Qed.

Lemma foldl_diff_versions (earlier : gmap string Z) (l : list (string * Z))
    (acc : list string * list string) :
  foldl (Session.diff_versions earlier) acc l =
    (acc.1 ++
       (filter (λ kv : string * Z, bool_decide (earlier !! kv.1 = None)) l).*1,
     acc.2 ++
       (filter (λ kv : string * Z,
                  from_option (λ e, bool_decide (e < kv.2)%Z) false
                    (earlier !! kv.1)) l).*1).
Proof.
  revert acc. induction l as [|kv l IH]; intros [c u]; simpl.
  - by rewrite !app_nil_r.
  - rewrite IH, !filter_cons_bool. unfold Session.diff_versions. simpl.
    destruct (earlier !! kv.1) as [e|] eqn:He; simpl.
    + destruct (bool_decide (e < kv.2)%Z); simpl; [|done].
      by rewrite <- app_assoc.
    + by rewrite <- app_assoc.
Qed.

Lemma foldl_diff_earlier (versions : gmap string Z) (l : list (string * Z))
    (acc : list string) :
  foldl (Session.diff_earlier versions) acc l =
    acc ++
    (filter (λ kv : string * Z, bool_decide (versions !! kv.1 = None)) l).*1.
Proof.
  revert acc. induction l as [|kv l IH]; intros acc; simpl.
  - by rewrite app_nil_r.
  - rewrite IH, filter_cons_bool. unfold Session.diff_earlier.
    destruct (versions !! kv.1) as [v|] eqn:Hv.
    + done.
    + simpl. by rewrite <- app_assoc.
Qed.

(** The keys of the entries of a dictionary that pass a test: no key
    twice, and a key is among them exactly when its entry passes. *)
Lemma filtered_keys (m : gmap string Z) (P : string * Z → bool) :
  NoDup (filter (λ kv, P kv) (map_to_list m)).*1 ∧
  ∀ k, k ∈ (filter (λ kv, P kv) (map_to_list m)).*1 ↔
       ∃ v, m !! k = Some v ∧ P (k, v) = true.
Proof.
  split.
  - eapply sublist_NoDup; [apply (NoDup_fst_map_to_list m)|].
    apply fmap_sublist, sublist_filter.
  - intros k. rewrite list_elem_of_fmap. split.
    + intros ([k' v] & -> & [HP Hin]%list_elem_of_filter).
      apply elem_of_map_to_list in Hin. exists v. split; [done|].
      by apply Is_true_true.
    + intros (v & Hv & HP). exists (k, v). split; [done|].
      apply list_elem_of_filter. split; [by apply Is_true_true|].
      by apply elem_of_map_to_list.
Qed.

Section Diff.
Context {σ : Type}.

(** With both arguments given, [diff] rebuilds the three arrays from the
    two dictionaries alone. *)
Lemma diff_given (current earlier : gmap string Z) (w : world σ) :
  Session.diff (Some current) (Some earlier) w =
    (Done tt,
     with_session
       (set_diff
          (foldl (Session.diff_versions earlier) ([], [])
             (map_to_list current)).1
          (foldl (Session.diff_versions earlier) ([], [])
             (map_to_list current)).2
          (foldl (Session.diff_earlier current) [] (map_to_list earlier)))
       w).
Proof. reflexivity. Qed.

(** C1: for all key-to-version mappings [current] and [earlier],
    [diff(current, earlier)] returns and leaves in [updated] exactly the
    keys present in both whose current version is strictly greater, in
    [created] exactly the keys only in [current], in [deleted] exactly the
    keys only in [earlier]; a key whose version is unchanged is in none
    of the three, and no key occurs twice in the three sequences taken
    together. *)
Theorem diff_partition (current earlier : gmap string Z) (w : world σ) :
  ∃ w',
    Session.diff (Some current) (Some earlier) w = (Done tt, w') ∧
    (∀ k, k ∈ updated (this w') ↔
          ∃ v e, current !! k = Some v ∧ earlier !! k = Some e ∧ (e < v)%Z) ∧
    (∀ k, k ∈ created (this w') ↔
          is_Some (current !! k) ∧ earlier !! k = None) ∧
    (∀ k, k ∈ deleted (this w') ↔
          is_Some (earlier !! k) ∧ current !! k = None) ∧
    (∀ k v, current !! k = Some v → earlier !! k = Some v →
            (k ∉ updated (this w')) ∧ (k ∉ created (this w')) ∧
            (k ∉ deleted (this w'))) ∧
    NoDup (updated (this w') ++ created (this w') ++ deleted (this w')).
Proof.
  eexists. split; [apply diff_given|]. simpl.
  rewrite foldl_diff_versions, foldl_diff_earlier. simpl.
  destruct (filtered_keys current (λ kv : string * Z,
    from_option (λ e, bool_decide (e < kv.2)%Z) false (earlier !! kv.1)))
    as [HUnd HU].
  destruct (filtered_keys current (λ kv : string * Z,
    bool_decide (earlier !! kv.1 = None))) as [HCnd HC].
  destruct (filtered_keys earlier (λ kv : string * Z,
    bool_decide (current !! kv.1 = None))) as [HDnd HD].
  simpl in HUnd, HU, HCnd, HC, HDnd, HD.
  match type of HUnd with NoDup ?l => set (U := l) in * end.
  match type of HCnd with NoDup ?l => set (C := l) in * end.
  match type of HDnd with NoDup ?l => set (D := l) in * end.
  assert (∀ k, k ∈ U ↔
    ∃ v e, current !! k = Some v ∧ earlier !! k = Some e ∧ (e < v)%Z) as HU'.
  { intros k. rewrite HU. split.
    - intros (v & Hv & H). exists v. destruct (earlier !! k) as [e|]; [|done].
      exists e. simpl in H. by apply bool_decide_eq_true in H.
    - intros (v & e & Hv & -> & Hlt). exists v. split; [done|]. simpl.
      by apply bool_decide_eq_true. }
  assert (∀ k, k ∈ C ↔ is_Some (current !! k) ∧ earlier !! k = None) as HC'.
  { intros k. rewrite HC. split.
    - intros (v & Hv & H). apply bool_decide_eq_true in H. by eauto.
    - intros [[v Hv] H]. exists v. split; [done|]. by apply bool_decide_eq_true. }
  assert (∀ k, k ∈ D ↔ is_Some (earlier !! k) ∧ current !! k = None) as HD'.
  { intros k. rewrite HD. split.
    - intros (v & Hv & H). apply bool_decide_eq_true in H. by eauto.
    - intros [[v Hv] H]. exists v. split; [done|]. by apply bool_decide_eq_true. }
  clear HU HC HD.
  split; [done|]. split; [done|]. split; [done|]. split.
  - intros k v Hc He. rewrite HU', HC', HD'. split; [|split].
    + intros (v' & e & ? & ? & ?). simplify_eq. lia.
    + intros [_ ?]. congruence.
    + intros [_ ?]. congruence.
  - apply NoDup_app. split; [done|]. split.
    + intros k Hk. apply HU' in Hk as (v & e & Hv & He & _).
      rewrite elem_of_app, HC', HD'. intros [[_ ?]|[_ ?]]; congruence.
    + apply NoDup_app. split; [done|]. split; [|done].
      intros k Hk. apply HC' in Hk as [[v Hv] _].
      rewrite HD'. intros [_ ?]. congruence.
Qed.

End Diff.

(** *** Every method of the session runs by steps *)

Section Runs.
Context {σ : Type} (z : Zotero σ) (d : bool).

Lemma runs_check (v : Z) : runs d (Session.check v : M σ bool).
Proof.
  unfold Session.check. runs_step; [runs_step|].
  destruct a; [case_bool_decide|]; runs_step.
Qed.

Lemma runs_diff (versions earlier : option (gmap string Z)) :
  runs d (Session.diff versions earlier : M σ unit).
Proof.
  unfold Session.diff. runs_step; [runs_step|].
  destruct versions, (Sync.versions a); simpl; runs_step.
Qed.

Lemma runs_update_pages (rest : list page) :
  runs d (Session.update_pages rest : M σ unit).
Proof.
  induction rest as [|message rest IH]; simpl; [runs_step|].
  runs_step; [runs_step|].
  runs_step; [apply runs_check|].
  runs_step; [runs_step|].
  runs_step; [|done].
  apply runs_modify. intros w. apply step_versions.
Qed.

Lemma runs_update : runs d (Session.update z).
Proof.
  unfold Session.update. repeat runs_step.
  destruct (unmodified a0); repeat runs_step.
  - destruct (multi a0); [apply runs_update_pages|runs_step].
  - apply runs_diff.
Qed.

Lemma runs_fetch (batch : list string) : runs d (Session.fetch z batch).
Proof. unfold Session.fetch. runs_step. Qed.

Lemma runs_children (item : item) : runs d (Session.children z item).
Proof. unfold Session.children. runs_step. Qed.

Lemma runs_receive_items (recv : message → M σ (list Sync.item))
    (data : list Sync.item) (keys : option (list string)) :
  (∀ m, runs d (recv m)) → runs d (Session.receive_items z recv data keys).
Proof.
  intros Hrecv. revert keys.
  induction data as [|item rest IH]; intros keys; simpl; [runs_step|].
  repeat runs_step; [|apply IH].
  destruct (hasChildren item); repeat runs_step.
  - apply runs_children.
  - apply Hrecv.
Qed.

Lemma runs_receive (fuel : nat) (message : message)
    (keys : option (list string)) :
  runs d (Session.receive z fuel message keys).
Proof.
  revert message keys. induction fuel as [|fuel IH]; intros message keys;
    simpl; [runs_step|].
  runs_step; [apply runs_check|].
  runs_step; [runs_step|].
  runs_step; [|runs_step].
  apply runs_receive_items. intros m. runs_step; [apply IH|runs_step].
Qed.

Lemma runs_download_loop (fuel i : nat) (keys : list string) :
  runs d (Session.download_loop z fuel i keys).
Proof.
  revert i keys. induction fuel as [|fuel IH]; intros i keys;
    simpl; [runs_step|].
  case_bool_decide; [|runs_step].
  repeat runs_step. destruct (a0.1); [apply IH|].
  runs_step; [apply runs_fetch|].
  runs_step; [apply runs_receive|apply IH].
Qed.

Lemma runs_download (fuel : nat) (keys : option (list string)) :
  runs d (Session.download z fuel keys).
Proof.
  unfold Session.download. repeat runs_step.
  destruct (default _ keys); [runs_step|apply runs_download_loop].
Qed.

End Runs.

Section RunsExecute.
Context {σ : Type} (z : Zotero σ).

Lemma runs_execute (fuel : nat) (skip : bool) (retry : option Z) :
  runs true (Session.execute z fuel skip retry).
Proof.
  revert retry. induction fuel as [|fuel IH]; intros retry;
    simpl; [runs_step|].
  runs_step.
  - runs_step; [apply runs_update|].
    destruct skip; [runs_step|].
    runs_step; [apply runs_download|runs_step].
  - destruct (_ || _); [runs_step|].
    runs_step; [|apply IH].
    apply runs_modify. intros w. by apply step_delay.
Qed.

End RunsExecute.

(** *** Fuel

    A method that has returned or raised with some fuel does the same
    with any larger fuel. *)

Section Fuel.
Context {σ : Type} (z : Zotero σ).

Lemma refines_receive_items (recv recv' : message → M σ (list Sync.item))
    (data : list Sync.item) (keys : option (list string)) :
  (∀ m, refines (recv m) (recv' m)) →
  refines (Session.receive_items z recv data keys)
          (Session.receive_items z recv' data keys).
Proof.
  intros Hrecv. revert keys.
  induction data as [|item rest IH]; intros keys; simpl; [refines_step|].
  refines_step; [refines_step|].
  refines_step; [|apply IH].
  destruct (hasChildren item); [|refines_step].
  refines_step; [refines_step|].
  refines_step; [apply Hrecv|refines_step].
Qed.

Lemma refines_receive (fuel fuel' : nat) (message : message)
    (keys : option (list string)) :
  fuel ≤ fuel' →
  refines (Session.receive z fuel message keys)
          (Session.receive z fuel' message keys).
Proof.
  revert fuel' message keys.
  induction fuel as [|fuel IH]; intros fuel' message keys Hle; simpl;
    [refines_step|].
  destruct fuel' as [|fuel']; [lia|]. simpl.
  refines_step; [refines_step|].
  refines_step; [refines_step|].
  refines_step; [|refines_step].
  apply refines_receive_items. intros m.
  refines_step; [|refines_step]. apply IH. lia.
Qed.

Lemma refines_download_loop (fuel fuel' i : nat) (keys : list string) :
  fuel ≤ fuel' →
  refines (Session.download_loop z fuel i keys)
          (Session.download_loop z fuel' i keys).
Proof.
  revert fuel' i keys.
  induction fuel as [|fuel IH]; intros fuel' i keys Hle; simpl;
    [refines_step|].
  destruct fuel' as [|fuel']; [lia|]. simpl.
  case_bool_decide; [|refines_step].
  refines_step; [refines_step|].
  refines_step; [refines_step|].
  destruct (a0.1); [apply IH; lia|].
  refines_step; [refines_step|].
  refines_step; [apply refines_receive; lia|apply IH; lia].
Qed.

Lemma refines_download (fuel fuel' : nat) (keys : option (list string)) :
  fuel ≤ fuel' →
  refines (Session.download z fuel keys) (Session.download z fuel' keys).
Proof.
  intros Hle. unfold Session.download.
  refines_step; [refines_step|].
  destruct (default _ keys); [refines_step|by apply refines_download_loop].
Qed.

Lemma refines_execute (fuel fuel' : nat) (skip : bool) (retry : option Z) :
  fuel ≤ fuel' →
  refines (Session.execute z fuel skip retry)
          (Session.execute z fuel' skip retry).
Proof.
  revert fuel' retry.
  induction fuel as [|fuel IH]; intros fuel' retry Hle; simpl;
    [refines_step|].
  destruct fuel' as [|fuel']; [lia|]. simpl.
  refines_step.
  - refines_step; [refines_step|].
    destruct skip; [refines_step|].
    refines_step; [apply refines_download; lia|refines_step].
  - destruct (_ || _); [refines_step|].
    refines_step; [refines_step|apply IH; lia].
Qed.

End Fuel.

(** *** What steps preserve *)

Section Steps.
Context {σ : Type} (d : bool).

(** A key of [items] stays one. *)
Lemma steps_items (w w' : world σ) (k : string) :
  rtc (step d) w w' →
  is_Some (items (this w) !! k) → is_Some (items (this w') !! k).
Proof.
  induction 1 as [|w1 w2 w3 Hstep _ IH]; [done|].
  intros Hk. apply IH. destruct Hstep as [| | |it| |]; simpl; try done.
  destruct (decide (item_key it = k)) as [->|Hne].
  - rewrite lookup_insert_eq. by eexists.
  - by rewrite lookup_insert_ne.
Qed.

(** The subscription is never touched. *)
Lemma steps_subscription (w w' : world σ) :
  rtc (step d) w w' → subscription (this w') = subscription (this w).
Proof.
  induction 1 as [|w1 w2 w3 Hstep _ IH]; [done|].
  rewrite IH. by destruct Hstep.
Qed.

(** The trace grows at its end, by requests, and by delays where the
    steps may delay. *)
Lemma steps_trace (w w' : world σ) :
  rtc (step d) w w' →
  ∃ evs, trace w' = trace w ++ evs ∧
         Forall (λ e, is_request e = true ∨
                      (d = true ∧ e = Delay resume)) evs.
Proof.
  induction 1 as [w|w1 w2 w3 Hstep _ (evs & Htr & Hevs)].
  - exists []. by rewrite app_nil_r.
  - destruct Hstep; simpl in *;
      try (exists evs; split; [done|done]).
    + exists (e :: evs). rewrite Htr, <- app_assoc. split; [done|].
      constructor; [by left|done].
    + exists (Delay resume :: evs). rewrite Htr, <- app_assoc. split; [done|].
      constructor; [by right|done].
Qed.

End Steps.

(** *** [modified] and [update] *)

Section Update.
Context {σ : Type} (z : Zotero σ).

Lemma update_unmodified (w : world σ) (m : manifest) (s' : σ) :
  get_versions z (remote w) = (Reply m, s') →
  unmodified m = true →
  Session.update z w =
    (Done tt, answered GetVersions s' (with_session (set_version None) w)).
Proof.
  intros Hget Hun.
  unfold Session.update, mbind, M_bind, bind, modify, request. simpl.
  rewrite Hget. simpl. by rewrite Hun.
Qed.

Lemma update_single_page (w : world σ) (m : manifest) (s' : σ) :
  get_versions z (remote w) = (Reply m, s') →
  unmodified m = false → m_type m = "json" → multi m = false →
  ∃ w', Session.update z w = (Done tt, w') ∧
        version (this w') = Some (m_version m) ∧
        versions (this w') = Some (m_data m) ∧
        subscription (this w') = subscription (this w).
Proof.
  intros Hget Hun Hty Hmulti.
  unfold Session.update, Session.diff, mbind, M_bind, bind, modify, request,
    assert_equal, gets.
  simpl. rewrite Hget. simpl. rewrite Hun, Hty, Hmulti. simpl.
  eexists. split; [reflexivity|]. done.
Qed.

(** C8: [modified] holds exactly when the session's version is defined
    and strictly greater than the version stored with the subscription.
    It is false for a new session (before any version fetch), false after
    an [update] that returned early because the server reported the
    resource unmodified (the version is then undefined), and false after
    an [update] that fetched a version equal to or less than the stored
    one; an [update] that reads a one-page manifest makes it the
    comparison of the fetched version with the stored one. *)
Theorem modified_exactly :
  (∀ s : session,
     modified s = true ↔
     ∃ v, version s = Some v ∧ (sub_version (subscription s) < v)%Z) ∧
  (∀ sub : Subscription, modified (new sub) = false) ∧
  (∀ (w : world σ) m s',
     get_versions z (remote w) = (Reply m, s') → unmodified m = true →
     ∃ w', Session.update z w = (Done tt, w') ∧
           version (this w') = None ∧ modified (this w') = false) ∧
  (∀ (w : world σ) r w' v,
     Session.update z w = (r, w') →
     version (this w') = Some v →
     (v ≤ sub_version (subscription (this w)))%Z →
     modified (this w') = false) ∧
  (∀ (w : world σ) m s',
     get_versions z (remote w) = (Reply m, s') →
     unmodified m = false → m_type m = "json" → multi m = false →
     ∃ w', Session.update z w = (Done tt, w') ∧
           version (this w') = Some (m_version m) ∧
           modified (this w') =
             bool_decide (sub_version (subscription (this w)) < m_version m)%Z).
Proof.
  split; [|split; [|split; [|split]]].
  - intros s. unfold modified. destruct (version s) as [v|].
    + rewrite bool_decide_eq_true. split; [by eauto|].
      by intros (v' & [= <-] & ?).
    + split; [done|]. by intros (v & ? & _).
  - done.
  - intros w m s' Hget Hun. eexists. split; [by eapply update_unmodified|].
    done.
  - intros w r w' v Hrun Hv Hle.
    apply (runs_update z false), steps_subscription in Hrun.
    unfold modified. rewrite Hv, Hrun. apply bool_decide_eq_false. lia.
  - intros w m s' Hget Hun Hty Hmulti.
    destruct (update_single_page w m s' Hget Hun Hty Hmulti)
      as (w' & Hrun & Hv & _ & Hsub).
    exists w'. split; [done|]. split; [done|].
    unfold modified. by rewrite Hv, Hsub.
Qed.

End Update.

(** *** [check], [receive] and what a mismatch leaves behind *)

Section Check.
Context {σ : Type} (z : Zotero σ).

Lemma check_undefined (v : Z) (w : world σ) :
  version (this w) = None → Session.check v w = (Done true, w).
Proof.
  intros Hv. unfold Session.check, mbind, M_bind, bind, gets. simpl.
  by rewrite Hv.
Qed.

Lemma check_match (v : Z) (w : world σ) :
  version (this w) = Some v → Session.check v w = (Done true, w).
Proof.
  intros Hv. unfold Session.check, mbind, M_bind, bind, gets. simpl.
  rewrite Hv. by rewrite bool_decide_eq_true_2.
Qed.

Lemma check_mismatch (v v0 : Z) (w : world σ) :
  version (this w) = Some v0 → v ≠ v0 →
  Session.check v w =
    (Raise (InterruptedError "version mismatch detected"), w).
Proof.
  intros Hv Hne. unfold Session.check, mbind, M_bind, bind, gets. simpl.
  rewrite Hv. by rewrite bool_decide_eq_false_2.
Qed.

(** A message of another version is refused before any of its items is
    stored: the world is the one [receive] found. *)
Lemma receive_mismatch (fuel : nat) (m : message)
    (keys : option (list string)) (w : world σ) (v0 : Z) :
  version (this w) = Some v0 → msg_version m ≠ v0 →
  Session.receive z (S fuel) m keys w =
    (Raise (InterruptedError "version mismatch detected"), w).
Proof.
  intros Hv Hne. simpl. apply bind_raise. by eapply check_mismatch.
Qed.

(** One turn of the loop of [download] whose batch is answered with
    another version: the download is aborted, and the session is the one
    the earlier turns left. *)
Lemma download_loop_mismatch (fuel i : nat) (keys : list string)
    (w : world σ) (batch : list string) (i' : nat) (m : message) (s' : σ)
    (v0 : Z) :
  i < length keys →
  Session.select (this w) (drop i keys) i [] = Done (batch, i') →
  batch ≠ [] →
  get_items z batch (remote w) = (Reply m, s') →
  version (this w) = Some v0 → msg_version m ≠ v0 →
  Session.download_loop z (S (S fuel)) i keys w =
    (Raise (InterruptedError "version mismatch detected"),
     answered (GetItems batch) s' w).
Proof.
  intros Hi Hsel Hbatch Hget Hv Hne.
  change (Session.download_loop z (S (S fuel)) i keys) with
    (if bool_decide (i < length keys) then
       s ← gets id;
       sel ← lift (Session.select s (drop i keys) i []);
       match sel.1 with
       | [] => Session.download_loop z (S fuel) sel.2 keys
       | batch =>
           message ← Session.fetch z batch;
           r ← Session.receive z (S fuel) message (Some keys);
           Session.download_loop z (S fuel) sel.2 (default keys r.2)
       end
     else mret keys).
  rewrite bool_decide_eq_true_2 by done.
  erewrite bind_done by reflexivity. simpl.
  erewrite bind_done by (unfold lift; by rewrite Hsel). simpl.
  destruct batch as [|b batch]; [done|].
  erewrite bind_done
    by (unfold Session.fetch, request; by rewrite Hget).
  apply bind_raise. by eapply receive_mismatch.
Qed.

(** C6: [check(v)] returns true for every [v] while the session's version
    is undefined; once it is defined, [check(v)] returns true when [v]
    equals it and raises an InterruptedError otherwise.  [receive] runs
    the check before it stores any item of the message: on a mismatch it
    raises with the world untouched, a download whose batch is answered
    with another version ends with the session that the earlier batches
    left, and no key of [items] is ever lost by a download, however it
    ends. *)
Theorem check_before_merge :
  (∀ (v : Z) (w : world σ),
     version (this w) = None → Session.check v w = (Done true, w)) ∧
  (∀ (v v0 : Z) (w : world σ),
     version (this w) = Some v0 →
     Session.check v w =
       if bool_decide (v = v0) then (Done true, w)
       else (Raise (InterruptedError "version mismatch detected"), w)) ∧
  (∀ fuel m keys (w : world σ) v0,
     version (this w) = Some v0 → msg_version m ≠ v0 →
     Session.receive z (S fuel) m keys w =
       (Raise (InterruptedError "version mismatch detected"), w)) ∧
  (∀ fuel i keys (w : world σ) batch i' m s' v0,
     i < length keys →
     Session.select (this w) (drop i keys) i [] = Done (batch, i') →
     batch ≠ [] →
     get_items z batch (remote w) = (Reply m, s') →
     version (this w) = Some v0 → msg_version m ≠ v0 →
     ∃ w', Session.download_loop z (S (S fuel)) i keys w =
             (Raise (InterruptedError "version mismatch detected"), w') ∧
           items (this w') = items (this w)) ∧
  (∀ fuel keys (w : world σ) r w' k,
     Session.download z fuel keys w = (r, w') →
     is_Some (items (this w) !! k) → is_Some (items (this w') !! k)).
Proof.
  split; [|split; [|split; [|split]]].
  - apply check_undefined.
  - intros v v0 w Hv. case_bool_decide as Heq.
    + subst. by apply check_match.
    + by apply (check_mismatch v v0).
  - intros fuel m keys w v0 Hv Hne. by apply (receive_mismatch _ _ _ _ v0).
  - intros fuel i keys w batch i' m s' v0 Hi Hsel Hbatch Hget Hv Hne.
    eexists. split; [by eapply download_loop_mismatch|done].
  - intros fuel keys w r w' k Hrun.
    apply (steps_items false). by eapply runs_download.
Qed.

End Check.

(** *** [execute] *)

Section Execute.
Context {σ : Type} (z : Zotero σ).

(** The [try] block of [execute]. *)
Lemma execute_S (fuel : nat) (skip : bool) (retry : option Z) :
  Session.execute z (S fuel) skip retry =
    try_catch
      (Session.update z ;;
       if skip then mret tt else Session.download z fuel None ;; mret tt)
      (λ error,
         if (default 3%Z retry =? 0)%Z || negb (is_InterruptedError error)
         then throw error
         else
           modify (log (Delay resume)) ;;
           Session.execute z fuel skip (Some (default 3%Z retry - 1)%Z)).
Proof. reflexivity. Qed.

(** The attempts of [execute] do not delay. *)
Lemma runs_attempt (fuel : nat) (skip : bool) :
  runs false
    (Session.update z ;;
     if skip then mret tt else Session.download z fuel None ;; mret tt).
Proof.
  runs_step; [apply runs_update|].
  destruct skip; [runs_step|].
  runs_step; [apply runs_download|runs_step].
Qed.

Lemma requests_no_delay (evs : list event) :
  Forall (λ e, is_request e = true ∨ (false = true ∧ e = Delay resume)) evs →
  filter (λ e, is_delay e) evs = [].
Proof.
  induction 1 as [|e evs He _ IH]; [done|].
  rewrite filter_cons_bool, IH.
  destruct He as [He|[? _]]; [|done]. by destruct e.
Qed.

(** The retries are bounded: a run of [execute] with a budget of [retry]
    retries, however it ends, has waited at most [retry] times. *)
Lemma execute_bounded (fuel : nat) (skip : bool) (retry : Z)
    (w w' : world σ) (r : outcome unit) :
  (0 ≤ retry)%Z →
  Session.execute z fuel skip (Some retry) w = (r, w') →
  ∃ evs, trace w' = trace w ++ evs ∧
         length (filter (λ e, is_delay e) evs) ≤ Z.to_nat retry.
Proof.
  revert retry w. induction fuel as [|fuel IH]; intros retry w Hretry Hrun.
  { injection Hrun as <- <-. exists []. rewrite app_nil_r. simpl.
    split; [done|lia]. }
  rewrite execute_S in Hrun. unfold try_catch in Hrun.
  change (default 3%Z (Some retry)) with retry in Hrun.
  destruct ((Session.update z ;;
             if skip then mret tt
             else Session.download z fuel None ;; mret tt) w)
    as [ra wa] eqn:Hatt.
  pose proof (steps_trace _ _ _ (runs_attempt fuel skip _ _ _ Hatt))
    as (evs & Htr & Hevs%requests_no_delay).
  assert (∃ evs, trace wa = trace w ++ evs ∧
            length (filter (λ e, is_delay e) evs) ≤ Z.to_nat retry) as Hone.
  { exists evs. rewrite Hevs. simpl. split; [done|lia]. }
  destruct ra as [[]|e|]; [by injection Hrun as <- <-| |by injection Hrun as <- <-].
  destruct ((retry =? 0)%Z || negb (is_InterruptedError e)) eqn:Hstop;
    [by injection Hrun as <- <-|].
  apply orb_false_iff in Hstop as [Hretry0%Z.eqb_neq _].
  erewrite bind_done in Hrun by reflexivity.
  apply IH in Hrun as (evs' & Htr' & Hevs'); [|lia].
  exists (evs ++ Delay resume :: evs'). split.
  - rewrite Htr'. simpl. rewrite Htr. by rewrite <- !app_assoc.
  - rewrite filter_app, Hevs, filter_cons_bool. simpl. lia.
Qed.

(** C7: when [update] or [download] raises an InterruptedError and
    [retry] is not zero (in particular when it is positive), [execute]
    waits the resume delay of the error, 5000 ms, and invokes itself with
    [retry - 1] on the session as the failed attempt left it; with
    [retry] zero, or when the error is not an InterruptedError, the error
    propagates from the world the attempt left, with no delay and no
    second attempt; when nothing is raised, [execute] returns.  A run
    with a budget of [retry] retries therefore waits at most [retry]
    times. *)
Theorem execute_retries (fuel : nat) (skip : bool) (retry : Z) (w : world σ) :
  (∀ message w',
     (Session.update z ;;
      if skip then mret tt else Session.download z fuel None ;; mret tt) w =
       (Raise (InterruptedError message), w') →
     retry ≠ 0%Z →
     Session.execute z (S fuel) skip (Some retry) w =
       Session.execute z fuel skip (Some (retry - 1)%Z)
         (log (Delay 5000) w')) ∧
  (∀ e w',
     (Session.update z ;;
      if skip then mret tt else Session.download z fuel None ;; mret tt) w =
       (Raise e, w') →
     retry = 0%Z →
     Session.execute z (S fuel) skip (Some retry) w = (Raise e, w')) ∧
  (∀ name message w',
     (Session.update z ;;
      if skip then mret tt else Session.download z fuel None ;; mret tt) w =
       (Raise (Error name message), w') →
     Session.execute z (S fuel) skip (Some retry) w =
       (Raise (Error name message), w')) ∧
  (∀ w',
     (Session.update z ;;
      if skip then mret tt else Session.download z fuel None ;; mret tt) w =
       (Done tt, w') →
     Session.execute z (S fuel) skip (Some retry) w = (Done tt, w')) ∧
  (∀ r w',
     (0 ≤ retry)%Z →
     Session.execute z (S fuel) skip (Some retry) w = (r, w') →
     ∃ evs, trace w' = trace w ++ evs ∧
            length (filter (λ e, is_delay e) evs) ≤ Z.to_nat retry).
Proof.
  split; [|split; [|split; [|split]]];
    [| | | |by intros r w' ? ?; eapply execute_bounded];
    rewrite execute_S; unfold try_catch; simpl.
  - intros message w' -> Hretry. simpl.
    replace (retry =? 0)%Z with false by lia. done.
  - intros e w' -> ->. done.
  - intros name message w' ->. simpl. by rewrite orb_true_r.
  - by intros w' ->.
Qed.

(** Without a [retry] argument, three retries are allowed. *)
Lemma execute_default (fuel : nat) (skip : bool) :
  Session.execute z fuel skip None = Session.execute z fuel skip (Some 3%Z).
Proof. by destruct fuel. Qed.

End Execute.

(** *** The worklist of [download] *)

(** The parents that a message adds to the keys: each is new, none comes
    twice, they stand at the end in the order of the items, and after
    them the keys list the parent of every item of the message. *)
Lemma push_parents (data : list item) (keys : list string) :
  ∃ added,
    foldl (λ ks it, Session.push_parent it ks) (Some keys) data
      = Some (keys ++ added) ∧
    NoDup added ∧
    (∀ p, p ∈ added →
          (p ∉ keys) ∧ ∃ it, it ∈ data ∧ getParent it = Some p) ∧
    (∀ it p, it ∈ data → getParent it = Some p → p ∈ keys ++ added).
Proof.
  revert keys. induction data as [|it data IH]; intros keys; simpl.
  - exists []. rewrite app_nil_r. split; [done|]. split; [constructor|].
    split; intros *; by rewrite ?elem_of_nil.
  - destruct (getParent it) as [p|] eqn:Hp; [case_bool_decide as Hin|].
    + destruct (IH keys) as (added & Heq & Hnd & Hnew & Hall).
      exists added. split; [done|]. split; [done|]. split.
      * intros q Hq. destruct (Hnew q Hq) as [? (it' & ? & ?)].
        split; [done|]. exists it'. split; [by right|done].
      * intros it' q [->|Hin']%elem_of_cons Hq; [|by eapply Hall].
        rewrite Hp in Hq. injection Hq as <-. apply elem_of_app. by left.
    + destruct (IH (keys ++ [p])) as (added & Heq & Hnd & Hnew & Hall).
      exists (p :: added). rewrite Heq, <- app_assoc. split; [done|].
      split; [|split].
      * constructor; [|done]. intros Hq. apply Hnew in Hq as [Hq _].
        apply Hq, elem_of_app. right. apply list_elem_of_here.
      * intros q [->|Hq]%elem_of_cons.
        -- split; [done|]. exists it. split; [by left|done].
        -- destruct (Hnew q Hq) as [Hq' (it' & ? & ?)]. split.
           ++ intros ?. apply Hq', elem_of_app. by left.
           ++ exists it'. split; [by right|done].
      * intros it' q [->|Hin']%elem_of_cons Hq.
        -- rewrite Hp in Hq. injection Hq as <-.
           apply elem_of_app. right. apply list_elem_of_here.
        -- specialize (Hall it' q Hin' Hq). by rewrite <- app_assoc in Hall.
    + destruct (IH keys) as (added & Heq & Hnd & Hnew & Hall).
      exists added. split; [done|]. split; [done|]. split.
      * intros q Hq. destruct (Hnew q Hq) as [? (it' & ? & ?)].
        split; [done|]. exists it'. split; [by right|done].
      * intros it' q [->|Hin']%elem_of_cons Hq; [congruence|by eapply Hall].
Qed.

Section Worklist.
Context {σ : Type} (z : Zotero σ).

(** The keys that the loop of [receive] returns depend on the items
    alone. *)
Lemma receive_items_keys (recv : message → M σ (list item))
    (data : list item) (keys keys' : option (list string)) (w w' : world σ) :
  Session.receive_items z recv data keys w = (Done keys', w') →
  keys' = foldl (λ ks it, Session.push_parent it ks) keys data.
Proof.
  revert keys w. induction data as [|it data IH]; intros keys w; simpl.
  - by intros [= <- <-].
  - intros H.
    apply bind_inv_done in H as ([] & w1 & _ & H).
    apply bind_inv_done in H as ([] & w2 & _ & H).
    by apply IH in H.
Qed.

Lemma receive_keys (fuel : nat) (m : message) (keys : option (list string))
    (w w' : world σ) (r : list item * option (list string)) :
  Session.receive z fuel m keys w = (Done r, w') →
  r = (msg_data m, foldl (λ ks it, Session.push_parent it ks) keys (msg_data m)).
Proof.
  destruct fuel as [|fuel]; simpl; [done|]. intros H.
  apply bind_inv_done in H as (? & w1 & _ & H).
  apply bind_inv_done in H as ([] & w2 & _ & H).
  apply bind_inv_done in H as (keys' & w3 & Hitems & H).
  apply receive_items_keys in Hitems as ->. by injection H as <- <-.
Qed.

(** The scan that selects a batch stops at an index [i + n] within the
    keys, past [i] when there are keys left; the batch lists what it
    picked among the keys it passed, and a key it passed without picking
    is cached. *)
Lemma select_spec (s : session) (rest : list string) (i : nat)
    (batch b : list string) (i' : nat) :
  Session.select s rest i batch = Done (b, i') →
  ∃ n picked,
    n ≤ length rest ∧ i' = i + n ∧ (rest ≠ [] → 0 < n) ∧
    b = batch ++ picked ∧
    (∀ k, k ∈ take n rest → k ∈ picked ∨ cached s k) ∧
    (∀ k, k ∈ picked → k ∈ take n rest).
Proof.
  revert i batch. induction rest as [|key rest IH]; intros i batch; simpl.
  - intros [= <- <-]. exists 0, []. rewrite app_nil_r. simpl.
    split_and!; [lia|lia|done|done| |done].
    intros k Hk. by apply elem_of_nil in Hk.
  - assert (
      (if bool_decide (MAX_BATCH_SIZE ≤ length (batch ++ [key]))
       then Done (batch ++ [key], S i)
       else Session.select s rest (S i) (batch ++ [key])) = Done (b, i') →
      ∃ n picked,
        n ≤ S (length rest) ∧ i' = i + n ∧ (key :: rest ≠ [] → 0 < n) ∧
        b = batch ++ picked ∧
        (∀ k, k ∈ take n (key :: rest) → k ∈ picked ∨ cached s k) ∧
        (∀ k, k ∈ picked → k ∈ take n (key :: rest))) as Hpicked.
    { case_bool_decide.
      - intros [= <- <-]. exists 1, [key]. simpl. rewrite take_0.
        split_and!; [lia|lia|lia|done|by left|done].
      - intros (n & picked & Hn & -> & _ & -> & Hpass & Hpick)%IH.
        exists (S n), (key :: picked). simpl. rewrite <- app_assoc.
        split_and!; [lia|lia|lia|done| |].
        + intros k [->|Hk]%elem_of_cons; [left; by left|].
          destruct (Hpass k Hk); [left; by right|by right].
        + intros k [->|Hk]%elem_of_cons; [by left|right; by apply Hpick]. }
    unfold Session.stale.
    destruct (items s !! key) as [it|] eqn:Hit;
      [destruct (versions s) as [vs|] eqn:Hvs;
         [destruct (bool_decide (Some (item_version it) ≠ vs !! key))
            eqn:Hstale|]|];
      simpl.
    + apply Hpicked.
    + intros (n & picked & Hn & -> & _ & -> & Hpass & Hpick)%IH.
      exists (S n), picked. simpl.
      split_and!; [lia|lia|lia|done| |by intros k ?; right; apply Hpick].
      intros k [->|Hk]%elem_of_cons; [|by apply Hpass].
      right. exists it, vs. split; [done|]. split; [done|].
      apply bool_decide_eq_false in Hstale.
      destruct (decide (vs !! key = Some (item_version it))) as [?|Hne];
        [done|]. exfalso. apply Hstale. by intros ?.
    + done.
    + apply Hpicked.
Qed.

Lemma download_loop_S (fuel i : nat) (keys : list string) :
  Session.download_loop z (S fuel) i keys =
    if bool_decide (i < length keys) then
      s ← gets id;
      sel ← lift (Session.select s (drop i keys) i []);
      match sel.1 with
      | [] => Session.download_loop z fuel sel.2 keys
      | batch =>
          message ← Session.fetch z batch;
          r ← Session.receive z fuel message (Some keys);
          Session.download_loop z fuel sel.2 (default keys r.2)
      end
    else mret keys.
Proof. reflexivity. Qed.

(** A download that returns has dealt with every key from the index of
    its scan on, the keys added on the way included: each was requested
    in a batch of this call, or was cached when the scan reached it. *)
Lemma download_loop_covers (fuel i : nat) (keys keys' : list string)
    (w w' : world σ) :
  Session.download_loop z fuel i keys w = (Done keys', w') →
  keys `prefix_of` keys' ∧
  ∃ evs, trace w' = trace w ++ evs ∧
    ∀ j k, i ≤ j → keys' !! j = Some k →
      (∃ batch, GetItems batch ∈ evs ∧ k ∈ batch) ∨
      (∃ ws, rtc (step false) w ws ∧ rtc (step false) ws w' ∧
            cached (this ws) k).
Proof.
  revert i keys w. induction fuel as [|fuel IH]; intros i keys w Hrun;
    [done|].
  pose proof (runs_download_loop z false _ _ _ _ _ _ Hrun) as Hsteps.
  rewrite download_loop_S in Hrun. case_bool_decide as Hi.
  2:{ injection Hrun as <- <-. split; [done|]. exists [].
      rewrite app_nil_r. split; [done|]. intros j k Hj Hk.
      apply lookup_lt_Some in Hk. lia. }
  apply bind_inv_done in Hrun as (s & w0 & [= <- <-] & Hrun).
  apply bind_inv_done in Hrun as ([batch i'] & w0 & Hsel & Hrun).
  unfold lift in Hsel. apply pair_equal_spec in Hsel as [Hsel <-].
  apply select_spec in Hsel
    as (n & picked & Hn & -> & _ & Hb & Hpass & Hpick).
  rewrite length_drop in Hn. simpl in Hb, Hrun. subst batch.
  (* the keys that this turn of the loop passed *)
  assert (∀ j k, i ≤ j < i + n → keys !! j = Some k →
            k ∈ picked ∨ cached (this w) k) as Hpassed.
  { intros j k Hj Hk. apply Hpass, list_elem_of_lookup. exists (j - i).
    rewrite lookup_take_lt by lia. rewrite lookup_drop.
    by replace (i + (j - i)) with j by lia. }
  destruct picked as [|b picked].
  - (* nothing to fetch *)
    apply IH in Hrun as (Hpre & evs & Htr & Hcover).
    split; [done|]. exists evs. split; [done|].
    intros j k Hj Hk. destruct (decide (i + n ≤ j)) as [?|Hlt];
      [by apply (Hcover j k)|].
    right. exists w. split; [done|]. split; [done|].
    destruct (Hpassed j k) as [?%elem_of_nil|?]; [lia| |done|done].
    destruct Hpre as [rest ->]. by rewrite lookup_app_l in Hk by lia.
  - (* a batch is fetched and received *)
    apply bind_inv_done in Hrun as (m & w1 & Hfetch & Hrun).
    apply bind_inv_done in Hrun as (r & w2 & Hrecv & Hrun).
    pose proof (runs_fetch z false _ _ _ _ Hfetch) as Hsteps1.
    pose proof (runs_receive z false _ _ _ _ _ _ Hrecv) as Hsteps2.
    pose proof (steps_trace _ _ _ Hsteps2) as (evs1 & Htr1 & _).
    apply receive_keys in Hrecv as ->. cbn [snd] in Hrun.
    destruct (push_parents (msg_data m) keys) as (added & Heq & _).
    rewrite Heq in Hrun. cbn [default from_option id] in Hrun.
    apply IH in Hrun as (Hpre & evs2 & Htr2 & Hcover).
    assert (trace w1 = trace w ++ [GetItems (b :: picked)]) as Htr0.
    { unfold Session.fetch, request in Hfetch.
      destruct (get_items z (b :: picked) (remote w)) as [[m'|reason] s1];
        by simplify_eq. }
    split; [by eapply prefix_app_l|].
    exists (GetItems (b :: picked) :: evs1 ++ evs2). split.
    { rewrite Htr2, Htr1, Htr0. by rewrite <- !app_assoc. }
    intros j k Hj Hk. destruct (decide (i + n ≤ j)) as [?|Hlt].
    + destruct (Hcover j k) as [(batch & Hin & Hk')|(ws & Hws & Hws' & Hc)];
        [done|done| |].
      * left. exists batch. split; [|done].
        right. apply elem_of_app. by right.
      * right. exists ws. split; [|done].
        etrans; [exact Hsteps1|]. by etrans.
    + destruct (Hpassed j k) as [?|?]; [lia| | |].
      * destruct Hpre as [rest ->].
        rewrite <- app_assoc in Hk. by rewrite lookup_app_l in Hk by lia.
      * left. exists (b :: picked). split; [by left|done].
      * right. by exists w.
Qed.

(** C9 (amended): when [receive] has merged a batch whose item references
    a parent that the keys do not list, the parent is among the keys
    appended to the end of the list; and when the loop of the same
    [download] call then runs to its end, the parent is requested in a
    later batch of that call, unless it is cached when the scan reaches
    it: [items] then holds an item for it at the version that the
    manifest lists, and such a key is skipped, not fetched.  Nothing is
    said of a call that an error aborts. *)
Theorem parent_appended_then_covered (fuel fuel' i : nat) (m : message)
    (keys keys' : list string) (r : list item * option (list string))
    (w w1 w' : world σ) (it : item) (parent : string) :
  Session.receive z fuel m (Some keys) w = (Done r, w1) →
  Session.download_loop z fuel' i (default keys r.2) w1 = (Done keys', w') →
  i ≤ length keys →
  it ∈ msg_data m → getParent it = Some parent → parent ∉ keys →
  (∃ added, r.2 = Some (keys ++ added) ∧ parent ∈ added ∧
            keys ++ added `prefix_of` keys') ∧
  ∃ evs, trace w' = trace w1 ++ evs ∧
    ((∃ batch, GetItems batch ∈ evs ∧ parent ∈ batch) ∨
     (∃ ws, rtc (step false) w1 ws ∧ rtc (step false) ws w' ∧
            cached (this ws) parent)).
Proof.
  intros Hrecv Hloop Hi Hit Hparent Hnew.
  apply receive_keys in Hrecv as ->. simpl in *.
  destruct (push_parents (msg_data m) keys)
    as (added & Heq & _ & _ & Hall).
  rewrite Heq in *. simpl in Hloop.
  apply download_loop_covers in Hloop as (Hpre & evs & Htr & Hcover).
  assert (parent ∈ added) as Hadded.
  { specialize (Hall it parent Hit Hparent).
    apply elem_of_app in Hall as [?|?]; done. }
  split; [by exists added|].
  exists evs. split; [done|].
  apply list_elem_of_lookup in Hadded as [j Hj].
  apply (Hcover (length keys + j)); [lia|].
  destruct Hpre as [rest ->].
  rewrite <- app_assoc, lookup_app_r by lia.
  replace (length keys + j - length keys) with j by lia.
  by apply lookup_app_l_Some.
Qed.

End Worklist.

(** *** Termination of [download] *)

Lemma appended_once_refl (payloads : list item) (keys0 : list string) :
  appended_once payloads keys0 keys0.
Proof.
  exists []. rewrite app_nil_r. split; [done|]. split; [constructor|].
  intros p. by rewrite elem_of_nil.
Qed.

Lemma parents_length (payloads : list item) :
  length (omap getParent payloads) ≤ length payloads.
Proof.
  induction payloads as [|it payloads IH]; [done|].
  change (omap getParent (it :: payloads)) with
    (match getParent it with
     | Some p => p :: omap getParent payloads
     | None => omap getParent payloads
     end).
  destruct (getParent it); simpl; lia.
Qed.

(** The list never outgrows the keys it started with and the parents of
    the payloads. *)
Lemma appended_once_length (payloads : list item) (keys0 keys : list string) :
  appended_once payloads keys0 keys →
  length keys0 ≤ length keys ≤ length keys0 + length payloads.
Proof.
  intros (added & -> & Hnd & Hnew). rewrite length_app.
  assert (length added ≤ length (omap getParent payloads)) as Hle.
  { apply submseteq_length, NoDup_submseteq; [done|].
    intros p (_ & it & Hit & Hp)%Hnew. apply list_elem_of_omap. by exists it. }
  pose proof (parents_length payloads). lia.
Qed.

(** Merging a message of payloads keeps the list of that form. *)
Lemma appended_once_push (payloads data : list item)
    (keys0 keys : list string) :
  (∀ it, it ∈ data → it ∈ payloads) →
  appended_once payloads keys0 keys →
  ∃ keys',
    foldl (λ ks it, Session.push_parent it ks) (Some keys) data = Some keys' ∧
    length keys ≤ length keys' ∧
    appended_once payloads keys0 keys'.
Proof.
  intros Hdata (added & -> & Hnd & Hnew).
  destruct (push_parents data (keys0 ++ added))
    as (added' & Heq & Hnd' & Hnew' & _).
  exists ((keys0 ++ added) ++ added'). split; [done|].
  split; [rewrite (length_app _ added'); lia|].
  exists (added ++ added'). rewrite app_assoc. split; [done|]. split.
  - apply NoDup_app. split; [done|]. split; [|done].
    intros p Hp Hp'. apply Hnew' in Hp' as [Hp' _].
    apply Hp', elem_of_app. by right.
  - intros p [Hp|Hp]%elem_of_app; [by apply Hnew|].
    apply Hnew' in Hp as [Hp (it & Hit & Hpar)]. split.
    + intros ?. apply Hp, elem_of_app. by left.
    + exists it. split; [by apply Hdata|done].
Qed.

Section Termination.
Context {σ : Type} (z : Zotero σ).

Lemma check_returns (v : Z) (w : world σ) :
  (Session.check v w).1 ≠ OutOfFuel.
Proof.
  unfold Session.check, mbind, M_bind, bind, gets. simpl.
  destruct (version (this w)); [case_bool_decide|]; done.
Qed.

Lemma assert_equal_returns (expected actual : string) (w : world σ) :
  (assert_equal expected actual w).1 ≠ OutOfFuel.
Proof. unfold assert_equal. by case_bool_decide. Qed.

Lemma request_returns {A} (e : event) (call : σ → reply A * σ) (w : world σ) :
  (request e call w).1 ≠ OutOfFuel.
Proof. unfold request. by destruct (call (remote w)) as [[?|?] ?]. Qed.

Lemma select_returns (s : session) (rest : list string) (i : nat)
    (batch : list string) :
  Session.select s rest i batch ≠ OutOfFuel.
Proof.
  revert i batch. induction rest as [|key rest IH]; intros i batch; simpl;
    [done|].
  unfold Session.stale.
  destruct (items s !! key);
    [destruct (versions s);
       [destruct (bool_decide _)|]|]; simpl; try done;
    by case_bool_decide.
Qed.

(** What [children] returns is an answer of the API to the request for
    the children of the item. *)
Lemma children_reply (it : item) (w w1 : world σ) (m : message) :
  Session.children z it w = (Done m, w1) →
  ∃ s', get_children z (item_key it) (remote w) = (Reply m, s').
Proof.
  unfold Session.children, request.
  destruct (get_children z (item_key it) (remote w)) as [[m'|reason] s'];
    intros ?; simplify_eq. by exists s'.
Qed.

Lemma fetch_reply (batch : list string) (w w1 : world σ) (m : message) :
  Session.fetch z batch w = (Done m, w1) →
  ∃ s', get_items z batch (remote w) = (Reply m, s').
Proof.
  unfold Session.fetch, request.
  destruct (get_items z batch (remote w)) as [[m'|reason] s'];
    intros ?; simplify_eq. by exists s'.
Qed.

Lemma receive_items_returns (recv : message → M σ (list item))
    (data : list item) (keys : option (list string)) (w : world σ) :
  (∀ it s m s', it ∈ data → hasChildren it = true →
     get_children z (item_key it) s = (Reply m, s') →
     ∀ w, (recv m w).1 ≠ OutOfFuel) →
  (Session.receive_items z recv data keys w).1 ≠ OutOfFuel.
Proof.
  revert keys w. induction data as [|it data IH]; intros keys w Hrecv; simpl;
    [done|].
  apply bind_returns; [done|]. intros [] w1 _.
  apply bind_returns.
  - destruct (hasChildren it) eqn:Hch; [|done].
    apply bind_returns; [apply request_returns|].
    intros m w2 (s' & Hget)%children_reply.
    apply bind_returns; [|done].
    eapply Hrecv; [by left|done|done].
  - intros [] w2 _. apply IH. intros it' s m s' Hin. apply Hrecv. by right.
Qed.

Section Ranked.
Variable rank : item → nat.
Hypothesis children_below :
  ∀ it s m s' c,
    get_children z (item_key it) s = (Reply m, s') →
    c ∈ msg_data m → hasChildren c = true → rank c < rank it.

(** [receive] returns when its fuel exceeds a bound on the rank of the
    items of the message that have children. *)
Lemma receive_returns (fuel n : nat) (m : message)
    (keys : option (list string)) (w : world σ) :
  n < fuel →
  (∀ it, it ∈ msg_data m → hasChildren it = true → rank it < n) →
  (Session.receive z fuel m keys w).1 ≠ OutOfFuel.
Proof.
  revert n m keys w. induction fuel as [|fuel IH]; intros n m keys w Hn Hrank;
    [lia|].
  simpl. apply bind_returns; [apply check_returns|]. intros _ w1 _.
  apply bind_returns; [apply assert_equal_returns|]. intros [] w2 _.
  apply bind_returns; [|done].
  apply receive_items_returns. intros it s m' s' Hit Hch Hget w3.
  apply bind_returns; [|done].
  apply (IH (rank it)).
  - specialize (Hrank it Hit Hch). lia.
  - intros c Hc Hcc. by eapply children_below.
Qed.

Variable payloads : list item.
Hypothesis items_of_payloads :
  ∀ batch s m s',
    get_items z batch s = (Reply m, s') →
    ∀ it, it ∈ msg_data m → it ∈ payloads.

(** The loop of [download] returns when its fuel covers the keys that
    can still be scanned and the depth of the children. *)
Lemma download_loop_returns (keys0 : list string) (fuel i : nat)
    (keys : list string) (w : world σ) (r : outcome (list string))
    (w' : world σ) :
  appended_once payloads keys0 keys →
  i ≤ length keys →
  (length keys0 + length payloads - i) + max_list (rank <$> payloads) + 3
    ≤ fuel →
  Session.download_loop z fuel i keys w = (r, w') →
  r ≠ OutOfFuel ∧ ∀ keys', r = Done keys' → appended_once payloads keys0 keys'.
Proof.
  revert i keys w. induction fuel as [|fuel IH]; intros i keys w Hone Hi Hfuel;
    [lia|].
  pose proof (appended_once_length _ _ _ Hone) as Hlen.
  rewrite download_loop_S. case_bool_decide as Hlt.
  2:{ intros [= <- <-]. split; [done|]. by intros keys' [= <-]. }
  intros Hrun.
  apply bind_inv in Hrun
    as [(s & w0 & [= <- <-] & Hrun)|[(e & ? & _)|[? _]]]; [|done|done].
  apply bind_inv in Hrun
    as [([batch i'] & w0 & Hsel & Hrun)|[(e & _ & ->)|[Hsel _]]];
    [|done|]; unfold lift in Hsel.
  2:{ injection Hsel as Hsel _. by apply select_returns in Hsel. }
  apply pair_equal_spec in Hsel as [Hsel <-].
  apply select_spec in Hsel as (n & picked & Hn & -> & Hpos & Hb & _ & _).
  rewrite length_drop in Hn. simpl in Hb, Hrun. subst batch.
  assert (0 < n) as Hn0.
  { apply Hpos. intros Hnil%(f_equal length).
    rewrite length_drop in Hnil. simpl in Hnil. lia. }
  destruct picked as [|b picked].
  - eapply IH; [done| | |done]; lia.
  - apply bind_inv in Hrun
      as [(m & w1 & Hfetch & Hrun)|[(e & _ & ->)|[Hfetch _]]]; [|done|].
    2:{ pose proof (request_returns (GetItems (b :: picked))
          (get_items z (b :: picked)) w) as Hret.
        unfold Session.fetch in Hfetch. by rewrite Hfetch in Hret. }
    apply fetch_reply in Hfetch as (s' & Hget).
    pose proof (items_of_payloads _ _ _ _ Hget) as Hdata.
    apply bind_inv in Hrun
      as [(r' & w2 & Hrecv & Hrun)|[(e & _ & ->)|[Hrecv _]]]; [|done|].
    2:{ pose proof (receive_returns fuel (S (max_list (rank <$> payloads)))
          m (Some keys) w1) as Hret.
        rewrite Hrecv in Hret. exfalso. apply Hret; [lia| |done].
        intros it Hit _. apply Nat.lt_succ_r, max_list_elem_of_le.
        apply list_elem_of_fmap. exists it. split; [done|by apply Hdata]. }
    apply receive_keys in Hrecv as ->. cbn [snd] in Hrun.
    destruct (appended_once_push payloads (msg_data m) keys0 keys Hdata Hone)
      as (keys1 & Heq & Hgrow & Hone1).
    rewrite Heq in Hrun. cbn [default from_option id] in Hrun.
    pose proof (appended_once_length _ _ _ Hone1) as Hlen1.
    eapply IH; [done| | |done]; lia.
Qed.

(** C10 (amended): [download] terminates for every list of keys and every
    finite set of item payloads, provided that the fetches of children
    are well founded: a rank on items decreases from an item to those of
    its children that have children themselves.  From a fuel on that
    depends on the keys, the payloads and their ranks only, the call
    returns or raises; a list it returns is the initial one with parents
    of payloads appended, each appended once and only when the list did
    not have it, so that the list never outgrows the initial keys and the
    payloads. *)
Theorem download_terminates (keys : option (list string)) (w : world σ) :
  ∃ N, ∀ fuel, N ≤ fuel →
    ∃ r w',
      Session.download z fuel keys w = (r, w') ∧
      r ≠ OutOfFuel ∧
      ∀ keys', r = Done keys' →
        appended_once payloads
          (default (updated (this w) ++ created (this w)) keys) keys' ∧
        length keys' ≤
          length (default (updated (this w) ++ created (this w)) keys)
          + length payloads.
Proof.
  set (keys0 := default (updated (this w) ++ created (this w)) keys).
  exists (length keys0 + length payloads + max_list (rank <$> payloads) + 3).
  intros fuel Hfuel.
  destruct (Session.download z fuel keys w) as [r w'] eqn:Hrun.
  exists r, w'. split; [done|].
  unfold Session.download in Hrun.
  apply bind_inv in Hrun
    as [(s & w0 & [= <- <-] & Hrun)|[(e & ? & _)|[? _]]]; [|done|done].
  fold keys0 in Hrun.
  assert (r ≠ OutOfFuel ∧
          ∀ keys', r = Done keys' → appended_once payloads keys0 keys')
    as [Hr Hone].
  { destruct keys0 as [|k keys0'] eqn:Hkeys0.
    - injection Hrun as <- <-. split; [done|]. intros keys' [= <-].
      apply appended_once_refl.
    - eapply (download_loop_returns (k :: keys0')); [| | |done].
      + apply appended_once_refl.
      + lia.
      + simpl in *. lia. }
  split; [done|]. intros keys' Heq. split; [by apply Hone|].
  apply Hone, appended_once_length in Heq. lia.
Qed.

End Ranked.
End Termination.

(** *** Runs on concrete libraries *)

Lemma parent_appended_then_covered_witness :
  (∃ added,
     Some ["x"; "p"] = Some (["x"] ++ added) ∧ "p" ∈ added ∧
     ["x"] ++ added `prefix_of` ["x"; "p"]) ∧
  ∃ evs,
    trace Scenario.after_download = trace Scenario.after_receive ++ evs ∧
    ((∃ batch, GetItems batch ∈ evs ∧ "p" ∈ batch) ∨
     (∃ ws, rtc (step false) Scenario.after_receive ws ∧
            rtc (step false) ws Scenario.after_download ∧
            cached (this ws) "p")).
Proof.
  apply (parent_appended_then_covered Scenario.steady 1 3 1
           Scenario.first_batch ["x"] ["x"; "p"]
           ([Scenario.x], Some ["x"; "p"])
           Scenario.after_fetch Scenario.after_receive
           Scenario.after_download Scenario.x "p").
  - vm_compute. reflexivity.
  - vm_compute. reflexivity.
  - simpl. lia.
  - apply list_elem_of_here.
  - reflexivity.
  - intros Hin. apply list_elem_of_singleton in Hin. discriminate.
Defined.

(** The run of the example: for the keys [x], where the payload of [x]
    references [p], one call of [download] requests [x], then [p], and
    returns with both in the list of keys and in [items]. *)
Lemma download_fetches_parent :
  ∃ w',
    Session.download Scenario.steady 3 (Some ["x"]) (Scenario.fresh tt)
      = (Done ["x"; "p"], w') ∧
    trace w' = [GetItems ["x"]; GetItems ["p"]] ∧
    items (this w') !! "x" = Some Scenario.x ∧
    items (this w') !! "p" = Some Scenario.p.
Proof. eexists. split; [vm_compute; reflexivity|]. by vm_compute. Qed.

(** C9, as stated, fails: [x] is downloaded, its payload references [p],
    which the keys do not list; [p] is appended and the call returns, but
    no run of the call requests [p] in any batch, because [p] is
    cached. *)
Lemma parent_not_fetched_when_cached :
  getParent Scenario.x = Some "p" ∧
  cached (this Scenario.resumed) "p" ∧
  (Session.download Scenario.steady 3 (Some ["x"]) Scenario.resumed).1
    = Done ["x"; "p"] ∧
  ¬ ∃ fuel keys' w',
      Session.download Scenario.steady fuel (Some ["x"]) Scenario.resumed
        = (Done keys', w') ∧
      ∃ batch, GetItems batch ∈ trace w' ∧ "p" ∈ batch.
Proof.
  split; [reflexivity|]. split.
  { exists Scenario.p, {["x" := 5%Z; "p" := 3%Z]}. by vm_compute. }
  split; [vm_compute; reflexivity|].
  intros (fuel & keys' & w' & Hrun & batch & Hin & Hp).
  assert (Session.download Scenario.steady 3 (Some ["x"]) Scenario.resumed
          = (Done ["x"; "p"],
             (Session.download Scenario.steady 3 (Some ["x"])
                Scenario.resumed).2)) as Hrun3
    by (vm_compute; reflexivity).
  pose proof (refines_agree
    (λ n, Session.download Scenario.steady n (Some ["x"])) fuel 3 _ _ _ _ _
    (λ n n' Hn, refines_download Scenario.steady n n' (Some ["x"]) Hn)
    Hrun ltac:(done) Hrun3 ltac:(done)) as [= -> ->].
  assert (trace (Session.download Scenario.steady 3 (Some ["x"])
                   Scenario.resumed).2 = [GetItems ["x"]]) as Htr
    by (vm_compute; reflexivity).
  rewrite Htr in Hin.
  apply list_elem_of_singleton in Hin. injection Hin as ->.
  apply list_elem_of_singleton in Hp. discriminate.
Qed.

(** The example of the specification: [earlier = {a:1, b:2, c:3}] and
    [current = {a:1, b:3, d:1}] give [created = [d]], [updated = [b]] and
    [deleted = [c]]. *)
Lemma diff_example :
  let earlier : gmap string Z := {["a" := 1%Z; "b" := 2%Z; "c" := 3%Z]} in
  let current : gmap string Z := {["a" := 1%Z; "b" := 3%Z; "d" := 1%Z]} in
  ∃ w',
    Session.diff (Some current) (Some earlier) (Scenario.fresh tt)
      = (Done tt, w') ∧
    created (this w') = ["d"] ∧ updated (this w') = ["b"] ∧
    deleted (this w') = ["c"].
Proof. eexists. split; [apply diff_given|]. by vm_compute. Qed.

(** A new session is not modified; on the library at rest, whose version
    5 exceeds the stored version 1, it is modified after [update]. *)
Lemma modified_example :
  modified (this (Scenario.fresh tt)) = false ∧
  modified (this (Session.update Scenario.steady (Scenario.fresh tt)).2)
    = true.
Proof. split; by vm_compute. Qed.

(** On the library that changes after the first batch, the second batch
    of the download is refused; the item of the first batch is still in
    [items]. *)
Lemma download_interrupted_example :
  let w := with_session (set_version (Some 5%Z)) (Scenario.fresh 0) in
  (Session.download Scenario.moving 3 (Some ["x"]) w).1
    = Raise (InterruptedError "version mismatch detected") ∧
  items (this (Session.download Scenario.moving 3 (Some ["x"]) w).2) !! "x"
    = Some Scenario.x ∧
  trace (Session.download Scenario.moving 3 (Some ["x"]) w).2
    = [GetItems ["x"]; GetItems ["p"]].
Proof. split; [|split]; by vm_compute. Qed.

(** On the same library [execute] is interrupted once.  With one retry
    it waits 5000 ms, starts again and returns (the item kept from the
    first attempt is not requested again); with none it raises the error
    of the first attempt, without delay; an error that is not an
    InterruptedError is raised at once, whatever the retries. *)
Lemma execute_example :
  (Session.execute Scenario.moving 5 false (Some 1%Z) (Scenario.fresh 0)).1
    = Done tt ∧
  trace (Session.execute Scenario.moving 5 false (Some 1%Z)
           (Scenario.fresh 0)).2
    = [GetVersions; GetItems ["x"]; GetItems ["p"]; Delay 5000;
       GetVersions] ∧
  (Session.execute Scenario.moving 5 false (Some 0%Z) (Scenario.fresh 0)).1
    = Raise (InterruptedError "version mismatch detected") ∧
  trace (Session.execute Scenario.moving 5 false (Some 0%Z)
           (Scenario.fresh 0)).2
    = [GetVersions; GetItems ["x"]; GetItems ["p"]] ∧
  (Session.execute Scenario.offline 5 false (Some 3%Z) (Scenario.fresh tt))
    = (Raise (Error "Error" "ECONNREFUSED"),
       answered GetVersions tt (Scenario.fresh tt)).
Proof. repeat split; by vm_compute. Qed.

(** The library at rest meets the conditions of termination, with the
    two payloads [x] and [p] and every rank zero. *)
Lemma steady_children :
  ∀ it (s : unit) m s' c,
    get_children Scenario.steady (item_key it) s = (Reply m, s') →
    c ∈ msg_data m → hasChildren c = true → 0 < 0.
Proof.
  intros it s m s' c [= <- _] Hc. by apply elem_of_nil in Hc.
Qed.

Lemma steady_items :
  ∀ batch (s : unit) m s',
    get_items Scenario.steady batch s = (Reply m, s') →
    ∀ it, it ∈ msg_data m → it ∈ [Scenario.x; Scenario.p].
Proof.
  intros batch s m s' [= <- _] it. simpl.
  intros (key & Hit & _)%list_elem_of_bind. unfold Scenario.shelf in Hit.
  repeat case_bool_decide.
  - apply list_elem_of_singleton in Hit as ->. by left.
  - apply list_elem_of_singleton in Hit as ->. right. by left.
  - by apply elem_of_nil in Hit.
Qed.

Lemma download_terminates_witness :
  ∃ N, ∀ fuel, N ≤ fuel →
    ∃ r w',
      Session.download Scenario.steady fuel (Some ["x"]) (Scenario.fresh tt)
        = (r, w') ∧
      r ≠ OutOfFuel ∧
      ∀ keys', r = Done keys' →
        appended_once [Scenario.x; Scenario.p] ["x"] keys' ∧
        length keys' ≤ 1 + 2.
Proof.
  exact (download_terminates Scenario.steady (λ _, 0) steady_children
           [Scenario.x; Scenario.p] steady_items (Some ["x"])
           (Scenario.fresh tt)).
Defined.

(** On the library whose item is its own child, [receive] never returns
    while the version of the session is undefined. *)
Lemma receive_cyclic (fuel : nat) (keys : option (list string))
    (w : world unit) :
  version (this w) = None →
  ∃ w', Session.receive Scenario.cyclic fuel
          (Message "json" 5 [Scenario.ouroboros]) keys w = (OutOfFuel, w').
Proof.
  revert keys w. induction fuel as [|fuel IH]; intros keys w Hv;
    [by exists w|].
  simpl. erewrite bind_done by by apply check_undefined.
  erewrite bind_done by reflexivity.
  set (w1 := answered (GetChildren "a") (remote w)
               (with_session (store Scenario.ouroboros) w)).
  destruct (IH None w1 Hv) as [w2 Hw2].
  exists w2. apply bind_out_of_fuel. simpl.
  erewrite bind_done by reflexivity.
  apply bind_out_of_fuel. erewrite bind_done by reflexivity.
  apply bind_out_of_fuel. apply bind_out_of_fuel. exact Hw2.
Qed.

(** C10, as stated, fails: the payloads are finite (every answer lists
    the one item [a]) and the keys are the one key [a], but [a] is listed
    among its own children, and no amount of fuel lets [download]
    return or raise. *)
Lemma download_diverges_on_cyclic_children :
  (∀ batch (s : unit) m s',
     get_items Scenario.cyclic batch s = (Reply m, s') →
     ∀ it, it ∈ msg_data m → it ∈ [Scenario.ouroboros]) ∧
  (∀ key (s : unit) m s',
     get_children Scenario.cyclic key s = (Reply m, s') →
     ∀ it, it ∈ msg_data m → it ∈ [Scenario.ouroboros]) ∧
  ¬ ∃ fuel,
      (Session.download Scenario.cyclic fuel (Some ["a"])
         (Scenario.fresh tt)).1 ≠ OutOfFuel.
Proof.
  split; [by intros batch s m s' [= <- _]|].
  split; [by intros key s m s' [= <- _]|].
  intros [fuel Hret]. apply Hret. clear Hret.
  destruct fuel as [|fuel]; [reflexivity|].
  change (Session.download Scenario.cyclic (S fuel) (Some ["a"])
            (Scenario.fresh ()))
    with (Session.download_loop Scenario.cyclic (S fuel) 0 ["a"]
            (Scenario.fresh ())).
  rewrite download_loop_S. rewrite bool_decide_eq_true_2 by (simpl; lia).
  erewrite bind_done by reflexivity.
  erewrite bind_done by reflexivity. simpl.
  erewrite bind_done by reflexivity.
  destruct (receive_cyclic fuel (Some ["a"])
              (answered (GetItems ["a"]) tt (Scenario.fresh tt)) eq_refl)
    as [w' Hw'].
  by erewrite bind_out_of_fuel by exact Hw'.
Qed.

(** *** [diff], again and at the edges *)

Lemma filter_bool_all {A : Type} (P : A → bool) (l : list A) :
  Forall (λ x, P x = true) l → filter (λ x, P x) l = l.
Proof.
  induction 1 as [|x l Hx _ IH]; [done|].
  by rewrite filter_cons_bool, Hx, IH.
Qed.

Lemma filter_bool_none {A : Type} (P : A → bool) (l : list A) :
  Forall (λ x, P x = false) l → filter (λ x, P x) l = [].
Proof.
  induction 1 as [|x l Hx _ IH]; [done|].
  by rewrite filter_cons_bool, Hx, IH.
Qed.

Section DiffEdges.
Context {σ : Type}.

(** X7: [diff] resets the three arrays: a second call with the same
    arguments changes nothing, and when [diff] returns, the arrays it
    leaves do not depend on those it found. *)
Theorem diff_resets_the_arrays (versions earlier : option (gmap string Z))
    (w : world σ) :
  Session.diff versions earlier (Session.diff versions earlier w).2 =
    Session.diff versions earlier w ∧
  (∀ c u d,
     (Session.diff versions earlier w).1 = Done tt →
     Session.diff versions earlier (with_session (set_diff c u d) w) =
       Session.diff versions earlier w).
Proof.
  unfold Session.diff, mbind, M_bind, bind, gets, modify, throw.
  destruct versions as [vs|]; simpl.
  - split; [done|]. by intros c u d _.
  - destruct (Sync.versions (this w)) as [vs|] eqn:Hvs; simpl.
    + rewrite Hvs. split; [done|]. by intros c u d _.
    + rewrite Hvs. split; [done|]. by intros c u d ?.
Qed.

(** X8: compared with themselves, versions give no created, no updated
    and no deleted key; compared with the empty versions of a
    subscription that was never synchronized, every key is created; and
    when nothing is left of them, every earlier key is deleted. *)
Theorem diff_of_equal_and_of_empty (vs : gmap string Z) (w : world σ) :
  (∃ w', Session.diff (Some vs) (Some vs) w = (Done tt, w') ∧
         created (this w') = [] ∧ updated (this w') = [] ∧
         deleted (this w') = []) ∧
  (∃ w', Session.diff (Some vs) (Some ∅) w = (Done tt, w') ∧
         created (this w') = (map_to_list vs).*1 ∧ updated (this w') = [] ∧
         deleted (this w') = []) ∧
  (∃ w', Session.diff (Some ∅) (Some vs) w = (Done tt, w') ∧
         created (this w') = [] ∧ updated (this w') = [] ∧
         deleted (this w') = (map_to_list vs).*1).
Proof.
  split_and!; (eexists; split; [apply diff_given|]); simpl;
    rewrite foldl_diff_versions, foldl_diff_earlier; simpl.
  - rewrite !filter_bool_none; [done|..]; apply Forall_forall;
      intros [k v] Hkv%elem_of_map_to_list; simpl; rewrite Hkv;
      first [done|simpl; apply bool_decide_eq_false; lia].
  - rewrite map_to_list_empty. simpl.
    rewrite filter_bool_all, filter_bool_none; [done|..]; apply Forall_forall;
      intros [k v] _; simpl; by rewrite lookup_empty.
  - rewrite map_to_list_empty. simpl.
    rewrite filter_bool_all; [done|]. apply Forall_forall.
    intros [k v] _. simpl. by rewrite lookup_empty.
Qed.

End DiffEdges.

(** *** [update] over several pages *)

Lemma merge_none (data : gmap string Z) (rest : list page) (k : string) :
  Forall (λ q, p_data q !! k = None) rest →
  merge data rest !! k = data !! k.
Proof.
  intros Hall. revert data.
  induction Hall as [|q rest Hq _ IH]; intros data; [done|].
  unfold merge in *. simpl. rewrite IH.
  by rewrite lookup_union_r.
Qed.

Lemma merge_last (data : gmap string Z) (pre post : list page) (p : page)
    (k : string) (v : Z) :
  p_data p !! k = Some v →
  Forall (λ q, p_data q !! k = None) post →
  merge data (pre ++ p :: post) !! k = Some v.
Proof.
  intros Hp Hpost. unfold merge. rewrite foldl_app. simpl.
  rewrite (merge_none _ post k Hpost).
  by apply lookup_union_Some_l.
Qed.

Section Pages.
Context {σ : Type} (z : Zotero σ).

Lemma update_pages_merge (rest : list page) (w : world σ) (v : Z)
    (vs : gmap string Z) :
  version (this w) = Some v → versions (this w) = Some vs →
  Forall (λ p, p_version p = v ∧ p_type p = "json") rest →
  Session.update_pages rest w =
    (Done tt,
     World (remote w) (set_versions (Some (merge vs rest)) (this w))
       (trace w ++ replicate (length rest) GetNext)).
Proof.
  revert w vs. induction rest as [|p rest IH]; intros [s t tr] vs Hv Hvs Hall;
    simpl in *.
  - rewrite app_nil_r. destruct t. simpl in *. by subst.
  - apply Forall_cons in Hall as [[Hpv Hpt] Hall].
    erewrite bind_done by reflexivity.
    erewrite bind_done by (apply check_match; simpl; by rewrite Hpv).
    rewrite Hpt. erewrite bind_done by reflexivity.
    erewrite bind_done by reflexivity.
    rewrite (IH _ (p_data p ∪ vs)); [|done|by simpl; rewrite Hvs|done].
    simpl. by rewrite <- app_assoc.
Qed.

Lemma update_pages_interrupted (pre post : list page) (p : page)
    (w : world σ) (v : Z) (vs : gmap string Z) :
  version (this w) = Some v → versions (this w) = Some vs →
  Forall (λ p, p_version p = v ∧ p_type p = "json") pre →
  p_version p ≠ v →
  Session.update_pages (pre ++ p :: post) w =
    (Raise (InterruptedError "version mismatch detected"),
     World (remote w) (set_versions (Some (merge vs pre)) (this w))
       (trace w ++ replicate (S (length pre)) GetNext)).
Proof.
  revert w vs. induction pre as [|q pre IH]; intros [s t tr] vs Hv Hvs Hall Hp;
    simpl in *.
  - erewrite bind_done by reflexivity.
    erewrite bind_raise by (by apply (check_mismatch _ v)).
    destruct t. simpl in *. by subst.
  - apply Forall_cons in Hall as [[Hqv Hqt] Hall].
    erewrite bind_done by reflexivity.
    erewrite bind_done by (apply check_match; simpl; by rewrite Hqv).
    rewrite Hqt. erewrite bind_done by reflexivity.
    erewrite bind_done by reflexivity.
    rewrite (IH _ (p_data q ∪ vs)); [|done|by simpl; rewrite Hvs|done|done].
    simpl. by rewrite <- app_assoc.
Qed.

(** The part of [update] that follows the first response, when it is
    modified, of type json and in several pages. *)
Lemma update_multi (w : world σ) (m : manifest) (s' : σ) :
  get_versions z (remote w) = (Reply m, s') →
  unmodified m = false → m_type m = "json" → multi m = true →
  Session.update z w =
    (Session.update_pages (pages m) ;; Session.diff None None)
      (World s'
         (set_versions (Some (m_data m))
            (set_version (Some (m_version m)) (this w)))
         (trace w ++ [GetVersions])).
Proof.
  intros Hget Hun Hty Hmulti. unfold Session.update.
  erewrite bind_done by reflexivity.
  erewrite bind_done by (unfold request; simpl; by rewrite Hget).
  rewrite Hun, Hty, Hmulti.
  erewrite bind_done by reflexivity.
  erewrite bind_done by reflexivity.
  erewrite bind_done by reflexivity.
  reflexivity.
Qed.

(** X9: when every page of a manifest in several pages carries the
    version of the first response, [update] requests them all, adopts
    that version and the versions of all pages, a page overriding the
    pages before it, and ends with the [diff] of these versions against
    those stored with the subscription. *)
Theorem update_merges_pages (w : world σ) (m : manifest) (s' : σ) :
  get_versions z (remote w) = (Reply m, s') →
  unmodified m = false → m_type m = "json" → multi m = true →
  Forall (λ p, p_version p = m_version m ∧ p_type p = "json") (pages m) →
  (∃ w1 w',
     Session.update z w = (Done tt, w') ∧
     Session.diff (Some (merge (m_data m) (pages m)))
       (Some (sub_versions (subscription (this w)))) w1 = (Done tt, w') ∧
     version (this w') = Some (m_version m) ∧
     versions (this w') = Some (merge (m_data m) (pages m)) ∧
     trace w' =
       trace w ++ GetVersions :: replicate (length (pages m)) GetNext) ∧
  (∀ k, Forall (λ q, p_data q !! k = None) (pages m) →
        merge (m_data m) (pages m) !! k = m_data m !! k) ∧
  (∀ pre p post k v,
     pages m = pre ++ p :: post → p_data p !! k = Some v →
     Forall (λ q, p_data q !! k = None) post →
     merge (m_data m) (pages m) !! k = Some v).
Proof.
  intros Hget Hun Hty Hmulti Hpages. split; [|split].
  - exists (World s'
              (set_versions (Some (merge (m_data m) (pages m)))
                 (set_versions (Some (m_data m))
                    (set_version (Some (m_version m)) (this w))))
              ((trace w ++ [GetVersions]) ++
               replicate (length (pages m)) GetNext)).
    eexists. split.
    { rewrite (update_multi w m s') by done.
      erewrite bind_done by (by eapply update_pages_merge).
      unfold Session.diff, mbind, M_bind, bind, gets, modify. simpl.
      reflexivity. }
    split; [reflexivity|]. simpl. by rewrite <- app_assoc.
  - intros k. apply merge_none.
  - intros pre p post k v ->. apply merge_last.
Qed.

(** X10: when a page of the manifest carries another version than the
    first response, [update] raises an InterruptedError as soon as it has
    requested that page, and requests no further page; the session keeps
    the version of the first response and the versions of the pages
    before, and its three arrays and its items are those it had before
    the call, as [diff] has not been reached. *)
Theorem update_interrupted_between_pages (w : world σ) (m : manifest)
    (s' : σ) (pre post : list page) (p : page) :
  get_versions z (remote w) = (Reply m, s') →
  unmodified m = false → m_type m = "json" → multi m = true →
  pages m = pre ++ p :: post →
  Forall (λ p, p_version p = m_version m ∧ p_type p = "json") pre →
  p_version p ≠ m_version m →
  ∃ w',
    Session.update z w =
      (Raise (InterruptedError "version mismatch detected"), w') ∧
    version (this w') = Some (m_version m) ∧
    versions (this w') = Some (merge (m_data m) pre) ∧
    created (this w') = created (this w) ∧
    updated (this w') = updated (this w) ∧
    deleted (this w') = deleted (this w) ∧
    items (this w') = items (this w) ∧
    trace w' = trace w ++ GetVersions :: replicate (S (length pre)) GetNext.
Proof.
  intros Hget Hun Hty Hmulti Hpages Hpre Hp. eexists. split.
  { rewrite (update_multi w m s') by done. rewrite Hpages.
    erewrite bind_raise by (by eapply update_pages_interrupted).
    reflexivity. }
  simpl. by rewrite <- app_assoc.
Qed.

End Pages.

Lemma update_merges_pages_witness :
  (∃ w1 w',
     Session.update Scenario.paged (Scenario.fresh tt) = (Done tt, w') ∧
     Session.diff
       (Some (merge (m_data Scenario.long_listing)
                (pages Scenario.long_listing)))
       (Some (sub_versions (subscription (this (Scenario.fresh tt))))) w1 =
       (Done tt, w') ∧
     version (this w') = Some (m_version Scenario.long_listing) ∧
     versions (this w') =
       Some (merge (m_data Scenario.long_listing)
               (pages Scenario.long_listing)) ∧
     trace w' =
       trace (Scenario.fresh tt) ++
       GetVersions :: replicate (length (pages Scenario.long_listing)) GetNext) ∧
  (∀ k, Forall (λ q, p_data q !! k = None) (pages Scenario.long_listing) →
        merge (m_data Scenario.long_listing) (pages Scenario.long_listing) !! k
          = m_data Scenario.long_listing !! k) ∧
  (∀ pre p post k v,
     pages Scenario.long_listing = pre ++ p :: post →
     p_data p !! k = Some v →
     Forall (λ q, p_data q !! k = None) post →
     merge (m_data Scenario.long_listing) (pages Scenario.long_listing) !! k
       = Some v).
Proof.
  apply (update_merges_pages Scenario.paged (Scenario.fresh tt)
           Scenario.long_listing tt); [reflexivity..|].
  repeat constructor.
Defined.

Lemma update_interrupted_between_pages_witness :
  ∃ w',
    Session.update Scenario.torn (Scenario.fresh tt) =
      (Raise (InterruptedError "version mismatch detected"), w') ∧
    version (this w') = Some 5%Z ∧
    versions (this w') = Some (merge {["x" := 5%Z]} [Page "json" 5 {["p" := 3%Z]}]) ∧
    created (this w') = [] ∧
    updated (this w') = [] ∧
    deleted (this w') = [] ∧
    items (this w') = ∅ ∧
    trace w' = [GetVersions; GetNext; GetNext].
Proof.
  apply (update_interrupted_between_pages Scenario.torn (Scenario.fresh tt)
           Scenario.torn_listing tt [Page "json" 5 {["p" := 3%Z]}]
           [Page "json" 6 {["r" := 6%Z]}] (Page "json" 6 {["q" := 6%Z]}));
    [reflexivity..| |discriminate].
  repeat constructor.
Defined.

(** *** What [download] requests *)

Lemma select_cached (s : session) (rest : list string) (i : nat)
    (batch : list string) :
  Forall (cached s) rest →
  Session.select s rest i batch = Done (batch, i + length rest).
Proof.
  intros Hall. revert i.
  induction Hall as [|key rest (it & vs & Hit & Hvs & Hk) _ IH]; intros i;
    simpl.
  - do 2 f_equal. lia.
  - unfold Session.stale. rewrite Hit, Hvs, Hk.
    rewrite bool_decide_eq_false_2 by (intros Hne; by apply Hne).
    rewrite IH. do 2 f_equal. lia.
Qed.

Lemma select_bounded (s : session) (rest : list string) (i : nat)
    (batch b : list string) (i' : nat) :
  Session.select s rest i batch = Done (b, i') →
  length batch < MAX_BATCH_SIZE → length b ≤ MAX_BATCH_SIZE.
Proof.
  revert i batch. induction rest as [|key rest IH]; intros i batch; simpl.
  - intros [= <- <-]. lia.
  - destruct (Session.stale s key) as [[|]|e|]; [|by apply IH|done|done].
    case_bool_decide as Hfull.
    + intros [= <- <-] Hlen. rewrite length_app in *. simpl in *. lia.
    + intros Hsel Hlen. eapply IH; [exact Hsel|]. lia.
Qed.

Lemma select_undefined_versions (s : session) (pre rest : list string)
    (key : string) (i : nat) (batch : list string) :
  versions s = None → is_Some (items s !! key) →
  Forall (λ k, items s !! k = None) pre →
  length batch + length pre < MAX_BATCH_SIZE →
  Session.select s (pre ++ key :: rest) i batch =
    Raise (Error "TypeError" "this.versions is undefined").
Proof.
  intros Hvs [it Hit] Hpre. revert i batch.
  induction Hpre as [|k pre Hk _ IH]; intros i batch Hlen; simpl in *.
  - unfold Session.stale. by rewrite Hit, Hvs.
  - unfold Session.stale at 1. rewrite Hk.
    rewrite bool_decide_eq_false_2 by (rewrite length_app; simpl; lia).
    apply IH. rewrite length_app. simpl. lia.
Qed.

Section Batches.
Context {σ : Type} (z : Zotero σ).
Import Invariants.

(** X11: [download] makes no request and changes nothing when the
    session holds every key at the version that the manifest lists. *)
Theorem download_skips_cached (fuel : nat) (keys : option (list string))
    (w : world σ) :
  Forall (cached (this w))
    (default (updated (this w) ++ created (this w)) keys) →
  2 ≤ fuel →
  Session.download z fuel keys w =
    (Done (default (updated (this w) ++ created (this w)) keys), w).
Proof.
  intros Hall Hfuel. destruct fuel as [|[|fuel]]; [lia|lia|].
  unfold Session.download. erewrite bind_done by reflexivity.
  change (id (this w)) with (this w).
  destruct (default (updated (this w) ++ created (this w)) keys)
    as [|k rest] eqn:Hkeys; [done|].
  rewrite download_loop_S.
  rewrite bool_decide_eq_true_2 by (simpl; lia).
  erewrite bind_done by reflexivity.
  erewrite bind_done; last first.
  { unfold lift. change (id (this w)) with (this w).
    rewrite drop_0. by rewrite select_cached. }
  cbn [fst snd]. rewrite download_loop_S.
  by rewrite bool_decide_eq_false_2 by (simpl; lia).
Qed.

(** X12: on a session that holds an item and has no versions yet (no
    [update] has read a manifest), [download] of keys that reach this
    item before a batch is full fails with a TypeError, since it compares
    the version of the item with an entry of the undefined versions; it
    has requested nothing. *)
Theorem download_before_update_raises (fuel : nat) (pre rest : list string)
    (key : string) (w : world σ) :
  versions (this w) = None →
  is_Some (items (this w) !! key) →
  Forall (λ k, items (this w) !! k = None) pre →
  length pre < MAX_BATCH_SIZE →
  Session.download z (S fuel) (Some (pre ++ key :: rest)) w =
    (Raise (Error "TypeError" "this.versions is undefined"), w).
Proof.
  intros Hvs Hit Hpre Hlen.
  assert (Session.download_loop z (S fuel) 0 (pre ++ key :: rest) w =
            (Raise (Error "TypeError" "this.versions is undefined"), w))
    as Hloop.
  { rewrite download_loop_S.
    rewrite bool_decide_eq_true_2 by (rewrite length_app; simpl; lia).
    erewrite bind_done by reflexivity.
    apply bind_raise. unfold lift. change (id (this w)) with (this w).
    rewrite drop_0. by rewrite select_undefined_versions. }
  unfold Session.download. erewrite bind_done by reflexivity.
  change (default _ (Some (pre ++ key :: rest))) with (pre ++ key :: rest).
  destruct pre; exact Hloop.
Qed.

Lemma keeps_check (I : relation (world σ)) `{!PreOrder I} (v : Z) :
  keeps I (Session.check v : M σ bool).
Proof.
  unfold Session.check. keeps_step idtac; [keeps_step idtac|].
  destruct a; [case_bool_decide|]; keeps_step idtac.
Qed.

Lemma keeps_receive_items (recv : message → M σ (list item))
    (data : list item) (keys : option (list string)) :
  (∀ m, keeps (emits is_item_call) (recv m)) →
  keeps (emits is_item_call) (Session.receive_items z recv data keys).
Proof.
  intros Hrecv. revert keys.
  induction data as [|it rest IH]; intros keys; simpl; [keeps_step idtac|].
  keeps_step idtac; [keeps_step ltac:(apply emits_session)|].
  keeps_step idtac; [|apply IH].
  destruct (hasChildren it); [|keeps_step idtac].
  keeps_step idtac.
  - unfold Session.children.
    keeps_step ltac:(by apply emits_answered).
  - keeps_step idtac; [apply Hrecv|keeps_step idtac].
Qed.

Lemma keeps_receive (fuel : nat) (m : message) (keys : option (list string)) :
  keeps (emits is_item_call) (Session.receive z fuel m keys).
Proof.
  revert m keys. induction fuel as [|fuel IH]; intros m keys; simpl;
    [keeps_step idtac|].
  keeps_step idtac; [apply keeps_check; try apply _|].
  keeps_step idtac; [keeps_step idtac|].
  keeps_step idtac; [|keeps_step idtac].
  apply keeps_receive_items. intros m'.
  keeps_step idtac; [apply IH|keeps_step idtac].
Qed.

Lemma keeps_download_loop (fuel i : nat) (keys : list string) :
  keeps (emits is_item_call) (Session.download_loop z fuel i keys).
Proof.
  revert i keys. induction fuel as [|fuel IH]; intros i keys;
    [apply keeps_out_of_fuel; try apply _|].
  rewrite download_loop_S. case_bool_decide; [|keeps_step idtac].
  intros w r w' Hrun.
  erewrite bind_done in Hrun by reflexivity.
  destruct (Session.select (id (this w)) (drop i keys) i [])
    as [[b i']|e|] eqn:Hsel.
  - erewrite bind_done in Hrun by reflexivity. cbn [fst snd] in Hrun.
    destruct b as [|k b]; [by eapply IH|].
    apply select_bounded in Hsel; [|unfold MAX_BATCH_SIZE; simpl; lia].
    revert Hrun. generalize w r w'.
    change (keeps (emits is_item_call)
              (message ← Session.fetch z (k :: b);
               r ← Session.receive z fuel message (Some keys);
               Session.download_loop z fuel i' (default keys r.2))).
    keeps_step idtac.
    + unfold Session.fetch.
      keeps_step ltac:(apply emits_answered; simpl in *; lia).
    + keeps_step idtac; [apply keeps_receive|apply IH].
  - erewrite bind_raise in Hrun by reflexivity.
    injection Hrun as <- <-. reflexivity.
  - erewrite bind_out_of_fuel in Hrun by reflexivity.
    injection Hrun as <- <-. reflexivity.
Qed.

(** X13: whatever the keys and however the call ends, the calls that
    [download] makes are requests for batches of at least one and at most
    [MAX_BATCH_SIZE] keys, and requests for the children of items. *)
Theorem download_batches_bounded (fuel : nat) (keys : option (list string))
    (w : world σ) :
  ∃ evs,
    trace (Session.download z fuel keys w).2 = trace w ++ evs ∧
    Forall is_item_call evs.
Proof.
  assert (keeps (emits is_item_call) (Session.download z fuel keys)) as Hkeeps.
  { unfold Session.download. keeps_step idtac; [keeps_step idtac|].
    destruct (default _ keys); [keeps_step idtac|apply keeps_download_loop]. }
  destruct (Session.download z fuel keys w) as [r w'] eqn:Hrun.
  exact (Hkeeps _ _ _ Hrun).
Qed.

(** *** What [receive] and [download] leave in the session *)

Lemma receive_items_stores (recv : message → M σ (list item))
    (data : list item) (keys keys' : option (list string)) (w w' : world σ) :
  (∀ m, runs false (recv m)) →
  Session.receive_items z recv data keys w = (Done keys', w') →
  ∀ it, it ∈ data → is_Some (items (this w') !! item_key it).
Proof.
  intros Hrecv. revert keys w.
  induction data as [|item rest IH]; intros keys w Hrun it Hin.
  { by apply elem_of_nil in Hin. }
  simpl in Hrun.
  apply bind_inv_done in Hrun as ([] & w1 & [= <-] & Hrun).
  apply bind_inv_done in Hrun as ([] & w2 & Hchildren & Hrun).
  apply elem_of_cons in Hin as [->|Hin]; [|by eapply IH].
  eapply (steps_items false); [by eapply runs_receive_items|].
  eapply (steps_items false).
  - assert (runs false
      (if hasChildren item
       then message ← Session.children z item; recv message;; mret ()
       else mret () : M σ unit)) as Hruns.
    { destruct (hasChildren item); repeat runs_step.
      - apply runs_children.
      - apply Hrecv. }
    by eapply Hruns.
  - simpl. rewrite lookup_insert_eq. by eexists.
Qed.

(** X14: when [receive] returns, it returns the items of the message,
    and the session holds an item under the key of each of them. *)
Theorem receive_stores_items (fuel : nat) (m : message)
    (keys : option (list string)) (w w' : world σ)
    (r : list item * option (list string)) :
  Session.receive z fuel m keys w = (Done r, w') →
  r.1 = msg_data m ∧
  ∀ it, it ∈ msg_data m → is_Some (items (this w') !! item_key it).
Proof.
  intros Hrun. split.
  { apply receive_keys in Hrun. by subst r. }
  destruct fuel as [|fuel]; [done|]. simpl in Hrun.
  apply bind_inv_done in Hrun as (ok & w1 & Hcheck & Hrun).
  apply bind_inv_done in Hrun as ([] & w2 & Hassert & Hrun).
  apply bind_inv_done in Hrun as (keys' & w3 & Hitems & [= <- <-]).
  eapply receive_items_stores; [|exact Hitems].
  intros m'. cbv beta. runs_step; [apply runs_receive|runs_step].
Qed.

(** X15: when [download] returns, the keys it returns start with the
    keys it was given, and every one of them has been requested in a
    batch of this call, or was held by the session at the version that
    the manifest lists at some time of the call. *)
Theorem download_covers_every_key (fuel : nat)
    (keys : option (list string)) (keys' : list string) (w w' : world σ) :
  Session.download z fuel keys w = (Done keys', w') →
  default (updated (this w) ++ created (this w)) keys `prefix_of` keys' ∧
  ∃ evs,
    trace w' = trace w ++ evs ∧
    ∀ k, k ∈ keys' →
      (∃ batch, GetItems batch ∈ evs ∧ k ∈ batch) ∨
      (∃ ws, rtc (step false) w ws ∧ rtc (step false) ws w' ∧
             cached (this ws) k).
Proof.
  unfold Session.download. intros Hrun.
  apply bind_inv_done in Hrun as (s & w0 & [= <- <-] & Hrun).
  change (id (this w)) with (this w) in Hrun.
  destruct (default (updated (this w) ++ created (this w)) keys)
    as [|k0 rest] eqn:Hkeys.
  - injection Hrun as <- <-. split; [done|]. exists [].
    split; [by rewrite app_nil_r|]. intros k Hk. by apply elem_of_nil in Hk.
  - apply download_loop_covers in Hrun as (Hpre & evs & Htr & Hcover).
    split; [done|]. exists evs. split; [done|].
    intros k (j & Hj)%list_elem_of_lookup. apply (Hcover j k); [lia|done].
Qed.

End Batches.

Lemma download_skips_cached_witness :
  Session.download Scenario.steady 2 (Some ["p"]) Scenario.resumed =
    (Done ["p"], Scenario.resumed).
Proof.
  apply (download_skips_cached Scenario.steady 2 (Some ["p"])
           Scenario.resumed); [|lia].
  constructor; [|constructor].
  exists Scenario.p, {["x" := 5%Z; "p" := 3%Z]}. by vm_compute.
Defined.

Lemma download_before_update_raises_witness :
  Session.download Scenario.steady 1 (Some ["x"; "p"; "q"])
    Scenario.unlisted =
    (Raise (Error "TypeError" "this.versions is undefined"),
     Scenario.unlisted).
Proof.
  apply (download_before_update_raises Scenario.steady 0 ["x"] ["q"] "p"
           Scenario.unlisted).
  - reflexivity.
  - exists Scenario.p. by vm_compute.
  - constructor; [by vm_compute|constructor].
  - unfold MAX_BATCH_SIZE. simpl. lia.
Defined.

Lemma receive_stores_items_witness :
  (msg_data Scenario.first_batch, Some ["x"; "p"]).1 =
    msg_data Scenario.first_batch ∧
  ∀ it, it ∈ msg_data Scenario.first_batch →
        is_Some (items (this Scenario.after_receive) !! item_key it).
Proof.
  apply (receive_stores_items Scenario.steady 1 Scenario.first_batch
           (Some ["x"]) Scenario.after_fetch Scenario.after_receive).
  by vm_compute.
Defined.

Lemma download_covers_every_key_witness :
  default
    (updated (this (Scenario.fresh tt)) ++ created (this (Scenario.fresh tt)))
    (Some ["x"]) `prefix_of` ["x"; "p"] ∧
  ∃ evs,
    trace (Session.download Scenario.steady 3 (Some ["x"])
             (Scenario.fresh tt)).2 = trace (Scenario.fresh tt) ++ evs ∧
    ∀ k, k ∈ ["x"; "p"] →
      (∃ batch, GetItems batch ∈ evs ∧ k ∈ batch) ∨
      (∃ ws, rtc (step false) (Scenario.fresh tt) ws ∧
             rtc (step false) ws
               (Session.download Scenario.steady 3 (Some ["x"])
                  (Scenario.fresh tt)).2 ∧
             cached (this ws) k).
Proof.
  apply (download_covers_every_key Scenario.steady 3 (Some ["x"]) ["x"; "p"]
           (Scenario.fresh tt)).
  by vm_compute.
Defined.

(** *** [execute] without download *)

Section Skip.
Context {σ : Type} (z : Zotero σ).
Import Invariants.

Lemma manifest_only_session (f : session → session) (w : world σ) :
  items (f (this w)) = items (this w) →
  manifest_only w (with_session f w).
Proof. intros Hf. split; [exact Hf|apply emits_session]. Qed.

Lemma manifest_only_log (e : event) (w : world σ) :
  is_manifest_call e → manifest_only w (log e w).
Proof. intros He. split; [done|by apply emits_log]. Qed.

Lemma manifest_only_answered (e : event) (s : σ) (w : world σ) :
  is_manifest_call e → manifest_only w (answered e s w).
Proof. intros He. split; [done|by apply emits_answered]. Qed.

Lemma keeps_diff (versions earlier : option (gmap string Z)) :
  keeps manifest_only (Session.diff versions earlier : M σ unit).
Proof.
  unfold Session.diff. keeps_step idtac; [keeps_step idtac|].
  destruct versions, (Sync.versions a); simpl;
    keeps_step ltac:(by apply manifest_only_session).
Qed.

Lemma keeps_update_pages (rest : list page) :
  keeps manifest_only (Session.update_pages rest : M σ unit).
Proof.
  induction rest as [|message rest IH]; simpl; [keeps_step idtac|].
  keeps_step idtac.
  { keeps_step ltac:(apply manifest_only_log; unfold is_manifest_call; auto). }
  keeps_step idtac; [apply keeps_check; apply _|].
  keeps_step idtac; [keeps_step idtac|].
  keeps_step idtac; [|done].
  keeps_step ltac:(by apply manifest_only_session).
Qed.

Lemma keeps_update : keeps manifest_only (Session.update z).
Proof.
  unfold Session.update.
  keeps_step idtac; [keeps_step ltac:(by apply manifest_only_session)|].
  keeps_step idtac.
  { keeps_step ltac:(apply manifest_only_answered; unfold is_manifest_call;
                     auto). }
  destruct (unmodified a0); [keeps_step idtac|].
  keeps_step idtac; [keeps_step idtac|].
  keeps_step idtac; [keeps_step ltac:(by apply manifest_only_session)|].
  keeps_step idtac; [keeps_step ltac:(by apply manifest_only_session)|].
  keeps_step idtac; [|apply keeps_diff].
  destruct (multi a0); [apply keeps_update_pages|keeps_step idtac].
Qed.

Lemma keeps_execute_skip (fuel : nat) (retry : option Z) :
  keeps manifest_only (Session.execute z fuel true retry).
Proof.
  revert retry. induction fuel as [|fuel IH]; intros retry;
    [apply keeps_out_of_fuel; apply _|].
  rewrite execute_S. keeps_step idtac.
  - keeps_step idtac; [apply keeps_update|keeps_step idtac].
  - destruct (_ || _); [keeps_step idtac|].
    keeps_step idtac; [|apply IH].
    keeps_step ltac:(apply manifest_only_log; unfold is_manifest_call; auto).
Qed.

(** X16: with [skip] set, [execute] leaves the items of the session as
    they are, and all it does to the world outside is to request the
    version manifest and its pages, and to wait before it retries. *)
Theorem execute_skip_requests_no_item (fuel : nat) (retry : option Z)
    (w : world σ) :
  items (this (Session.execute z fuel true retry w).2) = items (this w) ∧
  ∃ evs,
    trace (Session.execute z fuel true retry w).2 = trace w ++ evs ∧
    Forall is_manifest_call evs.
Proof.
  destruct (Session.execute z fuel true retry w) as [r w'] eqn:Hrun.
  exact (keeps_execute_skip fuel retry _ _ _ Hrun).
Qed.





End Skip.


End SessionFacts.

(** ** The attachment cache *)

Module AttachmentFacts.
Import Sync Attachments.

Section Cache.
Context {σ A : Type} (get_file : string → σ → reply A * σ).

(** X18: [attachment] asks for the file of an item at most once with
    success: when a call returns a response, a second call for the same
    item returns the same response and requests nothing; an item held by
    the cache is never requested; no entry of the cache is ever replaced;
    and a request that fails leaves the cache as it was, so that a later
    call asks again. *)
Theorem attachment_downloads_once (it : item) (c : cache σ A) :
  (∀ m, (attachment get_file it c).1 = Done m →
        attachment get_file it (attachment get_file it c).2 =
          (Done m, (attachment get_file it c).2)) ∧
  (∀ m, attachments c !! item_key it = Some m →
        attachment get_file it c = (Done m, c)) ∧
  (∀ k m, attachments c !! k = Some m →
          attachments (attachment get_file it c).2 !! k = Some m) ∧
  (∀ e, (attachment get_file it c).1 = Raise e →
        attachments (attachment get_file it c).2 = attachments c ∧
        requested (attachment get_file it c).2 =
          requested c ++ [item_key it]).
Proof.
  unfold attachment.
  destruct (attachments c !! item_key it) as [m0|] eqn:Hc.
  - split_and!.
    + intros m [= <-]. simpl. by rewrite Hc.
    + by intros m [= <-].
    + done.
    + done.
  - destruct (get_file (item_key it) (c_remote c)) as [[m0|reason] s] eqn:Hget;
      simpl.
    + split_and!.
      * intros m [= <-]. by rewrite lookup_insert_eq.
      * done.
      * intros k m Hk. rewrite lookup_insert_ne; [done|]. congruence.
      * done.
    + by split_and!.
Qed.

End Cache.
End AttachmentFacts.

(** ** The synchronizer *)

Module SynchronizerFacts.
Import Sync MFacts SessionFacts.

Section Dispatch.
Context {σ : Type} (z : Zotero σ) (plugins : Plugins).

(** The plugins that [dispatch] has processed: the available ones. *)
Lemma dispatch_map_succeeds (ps : list plugin) (w : world σ) :
  Forall (λ p, available plugins (plugin_name p) = true →
               process plugins (plugin_name p) (this w) = None) ps →
  Synchronizer.dispatch_map plugins ps w =
    (Done tt,
     World (remote w) (this w)
       (trace w ++
        ((Process ∘ plugin_name) <$>
           filter (λ p, available plugins (plugin_name p)) ps))).
Proof.
  revert w. induction ps as [|p ps IH]; intros [s t tr] Hok; simpl in *.
  - by rewrite app_nil_r.
  - apply Forall_cons in Hok as [Hp Hok].
    rewrite filter_cons_bool.
    unfold Synchronizer.dispatch_plugin.
    destruct (available plugins (plugin_name p)) eqn:Hav.
    + erewrite bind_done; last first.
      { unfold mbind, M_bind, bind, gets, modify. simpl.
        by rewrite (Hp eq_refl). }
      rewrite IH by done. simpl. by rewrite <- app_assoc.
    + erewrite bind_done by reflexivity. by rewrite IH.
Qed.

(** The first plugin that fails ends the dispatch: its error is raised,
    and the plugins after it are not processed. *)
Lemma dispatch_map_fails (pre post : list plugin) (p : plugin)
    (message : string) (w : world σ) :
  Forall (λ p, available plugins (plugin_name p) = true →
               process plugins (plugin_name p) (this w) = None) pre →
  available plugins (plugin_name p) = true →
  process plugins (plugin_name p) (this w) = Some message →
  Synchronizer.dispatch_map plugins (pre ++ p :: post) w =
    (Raise (Error "Error" message),
     World (remote w) (this w)
       (trace w ++
        ((Process ∘ plugin_name) <$>
           filter (λ p, available plugins (plugin_name p)) pre) ++
        [Process (plugin_name p)])).
Proof.
  revert w. induction pre as [|q pre IH]; intros [s t tr] Hok Hav Hfail;
    simpl in *.
  - apply bind_raise. unfold Synchronizer.dispatch_plugin. rewrite Hav.
    unfold mbind, M_bind, bind, gets, modify. simpl in *. by rewrite Hfail.
  - apply Forall_cons in Hok as [Hq Hok].
    rewrite filter_cons_bool.
    unfold Synchronizer.dispatch_plugin at 1.
    destruct (available plugins (plugin_name q)) eqn:Hq'.
    + erewrite bind_done; last first.
      { unfold mbind, M_bind, bind, gets, modify. simpl.
        by rewrite (Hq eq_refl). }
      rewrite IH by done. simpl. by rewrite <- app_assoc.
    + erewrite bind_done by reflexivity. by rewrite IH.
Qed.

(** More fuel does not change how [synchronize] ends. *)
Lemma refines_synchronize (fuel fuel' : nat) (sub : Subscription)
    (skip : bool) :
  fuel ≤ fuel' →
  refines (Synchronizer.synchronize z plugins fuel sub skip)
          (Synchronizer.synchronize z plugins fuel' sub skip).
Proof.
  intros Hle. unfold Synchronizer.synchronize.
  refines_step; [refines_step|].
  refines_step; [refines_step|].
  refines_step; [by apply refines_execute|].
  refines_step.
Qed.

(** The steps of a session call neither [sub.update] nor a plugin. *)
Lemma steps_not_persisted (w w' : world σ) :
  rtc (step true) w w' → ¬ persisted (trace w) → ¬ persisted (trace w').
Proof.
  intros (evs & -> & Hevs)%steps_trace Hw (v & vs & Hin).
  apply elem_of_app in Hin as [Hin|Hin]; [apply Hw; by exists v, vs|].
  rewrite Forall_forall in Hevs. by destruct (Hevs _ Hin) as [?|[_ ?]].
Qed.

(** C2 (amended): when the session that [synchronize] has executed is
    modified, the subscription is told to persist the version and the
    versions of the session after the dispatch, and only when the
    dispatch succeeds (or is skipped): when every available plugin
    succeeds, [sub.update] is the last call of [synchronize]; when a
    plugin raises an error, the error propagates from [synchronize] and
    [sub.update] is not called. *)
Theorem synchronize_persists_after_dispatch (fuel : nat)
    (sub : Subscription) (skip : bool) (w w1 : world σ) :
  Session.execute z fuel skip None
    (log Touch (with_session (λ _, new sub) w)) = (Done tt, w1) →
  modified (this w1) = true →
  (skip = true →
   Synchronizer.synchronize z plugins fuel sub skip w =
     (Done (this w1),
      log (Update (version (this w1)) (versions (this w1))) w1)) ∧
  (skip = false →
   Forall (λ p, available plugins (plugin_name p) = true →
                process plugins (plugin_name p) (this w1) = None)
     (sub_plugins sub) →
   Synchronizer.synchronize z plugins fuel sub skip w =
     (Done (this w1),
      World (remote w1) (this w1)
        (trace w1 ++
         ((Process ∘ plugin_name) <$>
            filter (λ p, available plugins (plugin_name p))
              (sub_plugins sub)) ++
         [Update (version (this w1)) (versions (this w1))]))) ∧
  (skip = false →
   ∀ pre p post message,
     sub_plugins sub = pre ++ p :: post →
     Forall (λ p, available plugins (plugin_name p) = true →
                  process plugins (plugin_name p) (this w1) = None) pre →
     available plugins (plugin_name p) = true →
     process plugins (plugin_name p) (this w1) = Some message →
     ∃ w',
       Synchronizer.synchronize z plugins fuel sub skip w =
         (Raise (Error "Error" message), w') ∧
       this w' = this w1 ∧
       (¬ persisted (trace w) → ¬ persisted (trace w'))).
Proof.
  intros Hexec Hmod.
  assert (subscription (this w1) = sub) as Hsub.
  { apply runs_execute, steps_subscription in Hexec. by rewrite Hexec. }
  assert (¬ persisted (trace w) → ¬ persisted (trace w1)) as Hquiet.
  { intros Hw. eapply steps_not_persisted; [by eapply runs_execute|].
    simpl. intros (v & vs & Hin).
    apply elem_of_app in Hin as [Hin|Hin]; [apply Hw; by exists v, vs|].
    by apply list_elem_of_singleton in Hin. }
  assert (
    Synchronizer.synchronize z plugins fuel sub skip w =
      ((if skip then mret tt else Synchronizer.dispatch plugins) ;;
       s ← gets id;
       modify (log (Update (version s) (versions s))) ;;
       gets id) w1) as Hsync.
  { unfold Synchronizer.synchronize.
    erewrite bind_done by reflexivity.
    erewrite bind_done by reflexivity.
    erewrite bind_done by exact Hexec.
    erewrite bind_done by reflexivity. simpl. rewrite Hmod.
    unfold mbind, M_bind, bind.
    destruct ((if skip then mret () else Synchronizer.dispatch plugins) w1)
      as [[[]|e|] w2]; done. }
  rewrite Hsync.
  split; [|split].
  - by intros ->.
  - intros -> Hok. erewrite bind_done; last first.
    { unfold Synchronizer.dispatch. erewrite bind_done by reflexivity.
      simpl. rewrite Hsub. by apply dispatch_map_succeeds. }
    unfold mbind, M_bind, bind, gets, modify, log. simpl.
    by rewrite <- app_assoc.
  - intros -> pre p post message Hps Hok Hav Hfail.
    eexists. split; [|split].
    + apply bind_raise. unfold Synchronizer.dispatch.
      erewrite bind_done by reflexivity. simpl. rewrite Hsub, Hps.
      by apply dispatch_map_fails.
    + done.
    + simpl. intros Hw (v & vs & Hin).
      apply elem_of_app in Hin as [Hin|Hin];
        [apply (Hquiet Hw); by exists v, vs|].
      apply elem_of_app in Hin as [Hin|Hin].
      * apply list_elem_of_fmap in Hin as (q & Hq & _). done.
      * by apply list_elem_of_singleton in Hin.
Qed.

End Dispatch.

(** *** Runs on the library at rest *)

Lemma synchronize_persists_after_dispatch_witness :
  Synchronizer.synchronize Scenario.steady Scenario.working 5
    Scenario.subscribed false (Scenario.fresh tt) =
    (Done (this Scenario.executed),
     World (remote Scenario.executed) (this Scenario.executed)
       (trace Scenario.executed ++
        ((Process ∘ plugin_name) <$>
           filter (λ p, available Scenario.working (plugin_name p))
             (sub_plugins Scenario.subscribed)) ++
        [Update (version (this Scenario.executed))
           (versions (this Scenario.executed))])).
Proof.
  refine (proj1 (proj2
    (synchronize_persists_after_dispatch Scenario.steady Scenario.working 5
       Scenario.subscribed false (Scenario.fresh tt) Scenario.executed _ _))
    eq_refl _).
  - vm_compute. reflexivity.
  - vm_compute. reflexivity.
  - repeat constructor.
Defined.

(** C2, as stated, fails: the session ends modified, the plugin raises an
    error, [synchronize] raises it, and no run of [synchronize] on this
    input calls [sub.update]. *)
Lemma synchronize_drops_update_when_plugin_fails :
  (Synchronizer.synchronize Scenario.steady Scenario.failing 5
     Scenario.subscribed false (Scenario.fresh tt)).1
    = Raise (Error "Error" "disk full") ∧
  modified
    (this (Synchronizer.synchronize Scenario.steady Scenario.failing 5
             Scenario.subscribed false (Scenario.fresh tt)).2) = true ∧
  ¬ ∃ fuel r w',
      Synchronizer.synchronize Scenario.steady Scenario.failing fuel
        Scenario.subscribed false (Scenario.fresh tt) = (r, w') ∧
      r ≠ OutOfFuel ∧ persisted (trace w').
Proof.
  split; [vm_compute; reflexivity|]. split; [vm_compute; reflexivity|].
  intros (fuel & r & w' & Hrun & Hr & v & vs & Hin).
  assert (Synchronizer.synchronize Scenario.steady Scenario.failing 5
            Scenario.subscribed false (Scenario.fresh tt)
          = (Raise (Error "Error" "disk full"),
             (Synchronizer.synchronize Scenario.steady Scenario.failing 5
                Scenario.subscribed false (Scenario.fresh tt)).2)) as Hrun5
    by (vm_compute; reflexivity).
  pose proof (refines_agree
    (λ n, Synchronizer.synchronize Scenario.steady Scenario.failing n
            Scenario.subscribed false) fuel 5 _ _ _ _ _
    (λ n n' Hn, refines_synchronize Scenario.steady Scenario.failing n n'
                  Scenario.subscribed false Hn)
    Hrun Hr Hrun5 ltac:(done)) as [= -> ->].
  assert (trace (Synchronizer.synchronize Scenario.steady Scenario.failing 5
                   Scenario.subscribed false (Scenario.fresh tt)).2 =
          [Touch; GetVersions; GetItems ["x"]; GetItems ["p"];
           Process "index"]) as Htr by (vm_compute; reflexivity).
  rewrite Htr in Hin.
  repeat (apply elem_of_cons in Hin as [Hin|Hin]; [discriminate|]).
  by apply elem_of_nil in Hin.
Qed.

(** With a plugin that succeeds, the same run ends with [sub.update]. *)
Lemma synchronize_updates_when_plugin_succeeds :
  trace (Synchronizer.synchronize Scenario.steady Scenario.working 5
           Scenario.subscribed false (Scenario.fresh tt)).2 =
    [Touch; GetVersions; GetItems ["x"]; GetItems ["p"]; Process "index";
     Update (Some 5%Z) (Some {["x" := 5%Z]})].
Proof. vm_compute. reflexivity. Qed.

(** *** What [dispatch] processes *)

Section DispatchOrder.
Context {σ : Type} (plugins : Plugins).



End DispatchOrder.

(** *** What [synchronize] does not do *)

Section Quiet.
Context {σ : Type} (z : Zotero σ) (plugins : Plugins).
Import Invariants.

(** The part of [synchronize] that follows [sub.touch()]. *)
Lemma synchronize_touched (fuel : nat) (sub : Subscription) (skip : bool)
    (w : world σ) :
  Synchronizer.synchronize z plugins fuel sub skip w =
    (Session.execute z fuel skip None ;;
     s ← gets id;
     (if modified s then
        (if skip then mret tt else Synchronizer.dispatch plugins) ;;
        s ← gets id;
        modify (log (Update (version s) (versions s)))
      else mret tt) ;;
     gets id)
      (log Touch (with_session (λ _, new sub) w)).
Proof.
  unfold Synchronizer.synchronize.
  erewrite bind_done by reflexivity.
  erewrite bind_done by reflexivity.
  reflexivity.
Qed.

(** X20: when the session that [synchronize] has executed is not
    modified, [synchronize] returns it at once: no plugin is processed,
    the subscription is not told to persist anything, and the calls of
    the run are [sub.touch()], then requests and waits of the session. *)
Theorem synchronize_leaves_unmodified_alone (fuel : nat)
    (sub : Subscription) (skip : bool) (w w1 : world σ) :
  Session.execute z fuel skip None
    (log Touch (with_session (λ _, new sub) w)) = (Done tt, w1) →
  modified (this w1) = false →
  Synchronizer.synchronize z plugins fuel sub skip w = (Done (this w1), w1) ∧
  ∃ evs,
    trace w1 = trace w ++ Touch :: evs ∧
    Forall (λ e, is_request e = true ∨ e = Delay resume) evs.
Proof.
  intros Hexec Hmod. split.
  - rewrite synchronize_touched.
    erewrite bind_done by exact Hexec.
    erewrite bind_done by reflexivity. simpl. rewrite Hmod.
    reflexivity.
  - apply runs_execute, steps_trace in Hexec as (evs & Htr & Hevs).
    exists evs. split; [by rewrite Htr; simpl; rewrite <- app_assoc|].
    eapply Forall_impl; [exact Hevs|]. intros e [?|[_ ?]]; auto.
Qed.

Lemma runs_any_call {A : Type} (m : M σ A) :
  runs true m → keeps (emits (λ _, True)) m.
Proof.
  intros Hruns w r w' Hrun.
  apply Hruns, steps_trace in Hrun as (evs & Htr & _).
  exists evs. split; [done|]. by apply Forall_true.
Qed.

Lemma keeps_dispatch_map (ps : list plugin) :
  keeps (emits (λ _, True)) (Synchronizer.dispatch_map plugins ps : M σ unit).
Proof.
  induction ps as [|p ps IH]; simpl; [keeps_step idtac|].
  keeps_step idtac; [|done].
  unfold Synchronizer.dispatch_plugin.
  destruct (available plugins (plugin_name p)); [|keeps_step idtac].
  keeps_step idtac; [keeps_step idtac|].
  keeps_step idtac; [keeps_step ltac:(by apply emits_log)|].
  destruct (process plugins (plugin_name p) a); keeps_step idtac.
Qed.

(** X21: every run of [synchronize] has a session of its own: the
    session that the world held before has no part in the run; and the
    first call of the run is [sub.touch()], however the run ends. *)
Theorem synchronize_starts_anew (fuel : nat) (sub : Subscription)
    (skip : bool) (w : world σ) :
  (∀ s : session,
     Synchronizer.synchronize z plugins fuel sub skip
       (World (remote w) s (trace w)) =
     Synchronizer.synchronize z plugins fuel sub skip w) ∧
  ∃ evs,
    trace (Synchronizer.synchronize z plugins fuel sub skip w).2 =
      trace w ++ Touch :: evs.
Proof.
  split.
  - intros s. by rewrite !synchronize_touched.
  - rewrite synchronize_touched.
    match goal with |- context [(?m (log Touch ?w0)).2] =>
      assert (keeps (emits (λ _, True)) m) as Hkeeps;
      [|destruct (m (log Touch w0)) as [r w'] eqn:Hrun;
        destruct (Hkeeps _ _ _ Hrun) as (evs & Htr & _)]
    end.
    { keeps_step idtac; [apply runs_any_call, runs_execute|].
      keeps_step idtac; [keeps_step idtac|].
      keeps_step idtac; [|keeps_step idtac].
      destruct (modified a0); [|keeps_step idtac].
      keeps_step idtac.
      - destruct skip; [keeps_step idtac|].
        unfold Synchronizer.dispatch.
        keeps_step idtac; [keeps_step idtac|apply keeps_dispatch_map].
      - keeps_step idtac; [keeps_step idtac|].
        keeps_step ltac:(by apply emits_log). }
    exists evs. simpl in *. by rewrite Htr, <- app_assoc.
Qed.

(** X22: [Synchronizer.prototype.update], the run that skips, requests
    no item and no children and processes no plugin, whatever the plugin
    registry: its session ends without items, and its calls are
    [sub.touch()], requests for the version manifest, waits, and at most
    [sub.update] at the end. *)
Theorem update_neither_downloads_nor_dispatches (fuel : nat)
    (sub : Subscription) (w : world σ) :
  (∀ others : Plugins,
     Synchronizer.update z others fuel sub w =
     Synchronizer.update z plugins fuel sub w) ∧
  items (this (Synchronizer.update z plugins fuel sub w).2) = ∅ ∧
  ∃ evs,
    trace (Synchronizer.update z plugins fuel sub w).2 =
      trace w ++ Touch :: evs ∧
    Forall is_versions_call evs.
Proof.
  split; [done|].
  unfold Synchronizer.update. rewrite synchronize_touched.
  destruct (Session.execute z fuel true None
              (log Touch (with_session (λ _, new sub) w)))
    as [r w1] eqn:Hexec.
  destruct (keeps_execute_skip z fuel None _ _ _ Hexec)
    as [Hitems (evs & Htr & Hevs)].
  unfold same_items in Hitems. simpl in Hitems, Htr.
  assert (Forall is_versions_call evs) as Hevs'.
  { eapply Forall_impl; [exact Hevs|].
    by intros e [->|[->| ->]]. }
  destruct r as [[]|e|].
  - erewrite bind_done by exact Hexec.
    erewrite bind_done by reflexivity. simpl.
    destruct (modified (this w1)).
    + unfold mbind, M_bind, bind, gets, modify. simpl.
      split; [done|]. exists (evs ++ [Update (version (this w1))
                                        (versions (this w1))]).
      split; [by rewrite Htr, <- !app_assoc|].
      apply Forall_app. split; [done|]. by repeat constructor.
    + unfold mbind, M_bind, bind, gets. simpl.
      split; [done|]. exists evs. split; [|done].
      by rewrite Htr, <- app_assoc.
  - erewrite bind_raise by exact Hexec. simpl.
    split; [done|]. exists evs. split; [|done].
    by rewrite Htr, <- app_assoc.
  - erewrite bind_out_of_fuel by exact Hexec. simpl.
    split; [done|]. exists evs. split; [|done].
    by rewrite Htr, <- app_assoc.
Qed.

End Quiet.

Lemma synchronize_leaves_unmodified_alone_witness :
  Synchronizer.synchronize Scenario.unchanged Scenario.failing 5
    Scenario.subscribed false (Scenario.fresh tt) =
    (Done (this (Session.execute Scenario.unchanged 5 false None
                   Scenario.touched).2),
     (Session.execute Scenario.unchanged 5 false None Scenario.touched).2) ∧
  ∃ evs,
    trace (Session.execute Scenario.unchanged 5 false None
             Scenario.touched).2 =
      trace (Scenario.fresh tt) ++ Touch :: evs ∧
    Forall (λ e, is_request e = true ∨ e = Delay resume) evs.
Proof.
  apply (synchronize_leaves_unmodified_alone Scenario.unchanged
           Scenario.failing 5 Scenario.subscribed false (Scenario.fresh tt)).
  - by vm_compute.
  - by vm_compute.
Defined.

End SynchronizerFacts.
